(** * Goldbach mirror: the scanner and the discriminant checker

    A shallow embedding of [goldbach_scanner_v2.py] and
    [verify_discriminant.py].

    Python's [int] is unbounded, so it is [Z]; [//] and [%] are floor
    division and its remainder, which is what [Z.div] and [Z.modulo] are
    (the remainder has the sign of the divisor).  A [bytearray] is a list of
    byte values, a Python [float] is an IEEE 754 binary64 number, which is
    what the kernel's [float] is.  Exceptions and [while] loops are explicit:
    a computation returns an [outcome], and a [while] loop takes fuel. *)

From Stdlib Require Import ZArith Zdivisibility Lia String PrimFloat Uint63 Sorted.
From stdpp Require Import base list.

Open Scope Z_scope.

(** ** Outcomes of a call *)

Inductive exn : Type :=
| IndexError
| ZeroDivisionError
| ValueError.

Inductive outcome (A : Type) : Type :=
| Ret (a : A)
| Raise (e : exn)
| OutOfFuel.

Arguments Ret {A} a.
Arguments Raise {A} e.
Arguments OutOfFuel {A}.

Definition bind {A B : Type} (m : outcome A) (k : A -> outcome B) : outcome B :=
  match m with
  | Ret a => k a
  | Raise e => Raise e
  | OutOfFuel => OutOfFuel
  end.

Notation "'let*' x ':=' m 'in' k" := (bind m (fun x => k))
  (at level 10, x pattern, m at level 100, k at level 200).

(** A call returns [a] when every large enough amount of fuel gives [a]. *)
Definition returns {A : Type} (run : nat -> outcome A) (a : A) : Prop :=
  exists k : nat, forall fuel : nat, (k <= fuel)%nat -> run fuel = Ret a.

(** ** Integer primitives *)

(** [a % b] *)
Definition py_mod (a b : Z) : outcome Z :=
  if b =? 0 then Raise ZeroDivisionError else Ret (a mod b).

(** [a // b] *)
Definition py_floordiv (a b : Z) : outcome Z :=
  if b =? 0 then Raise ZeroDivisionError else Ret (a / b).

(** [math.isqrt(n)] *)
Definition isqrt (n : Z) : outcome Z :=
  if n <? 0 then Raise ValueError else Ret (Z.sqrt n).

(** [range(a, b)] *)
Definition py_range (a b : Z) : list Z :=
  map (fun k : nat => a + Z.of_nat k) (seq 0 (Z.to_nat (b - a))).

(** [for x in xs: acc = body(acc, x)], stopping at the first exception. *)
Fixpoint for_each {A S : Type} (body : S -> A -> outcome S) (xs : list A) (s : S)
  : outcome S :=
  match xs with
  | [] => Ret s
  | x :: rest => let* s' := body s x in for_each body rest s'
  end.

(** ** verify_discriminant.py *)

(** [compute_discriminant(roots)]: both loops run over index ranges inside
    [roots], so the default of [nth] is never read. *)
Definition compute_discriminant (roots : list Z) : Z :=
  let n := Z.of_nat (length roots) in
  fold_left
    (fun disc i =>
       fold_left
         (fun disc j =>
            disc * (nth (Z.to_nat i) roots 0 - nth (Z.to_nat j) roots 0) ^ 2)
         (py_range (i + 1) n) disc)
    (py_range 0 n) 1.

(** What [ord_p] returns: [float('inf')] or an [int]. *)
Inductive valuation : Type :=
| Infinite
| Finite (v : Z).

(** The loop of [ord_p]: [while n % p == 0: v += 1; n //= p]. *)
Fixpoint ord_p_loop (fuel : nat) (n p v : Z) : outcome Z :=
  match fuel with
  | O => OutOfFuel
  | S fuel' =>
      let* r := py_mod n p in
      if r =? 0 then
        let v := v + 1 in
        let* n := py_floordiv n p in
        ord_p_loop fuel' n p v
      else Ret v
  end.

(** [ord_p(n, p)] *)
Definition ord_p (fuel : nat) (n p : Z) : outcome valuation :=
  if n =? 0 then Ret Infinite
  else let* v := ord_p_loop fuel n p 0 in Ret (Finite v).

(** The root list the harness builds for [(N, p)]. *)
Definition frey_roots (N p : Z) : list Z :=
  let q := 2 * N - p in [0; p; - p; q; - q].

(** The closed form of theorem 3.2, as [verify_theorem_3_2] writes it. *)
Definition formula (N p : Z) : Z :=
  let q := 2 * N - p in
  2 ^ 12 * p ^ 6 * q ^ 6 * (N - p) ^ 4 * N ^ 4.

(** The discriminant check at the end of [run_project_mirror], with its own
    inlined loops. *)
Definition mirror_disc_check : bool :=
  let N_test := 15 in
  let p_test := 7 in
  let roots := [0; p_test; - p_test; 2 * N_test - p_test; - (2 * N_test - p_test)] in
  let n := Z.of_nat (length roots) in
  let disc :=
    fold_left
      (fun disc i =>
         fold_left
           (fun disc j =>
              disc * (nth (Z.to_nat i) roots 0 - nth (Z.to_nat j) roots 0) ^ 2)
           (py_range (i + 1) n) disc)
      (py_range 0 n) 1 in
  let p := p_test in
  let q := 2 * N_test - p_test in
  let Nm := N_test in
  let predicted_disc := 2 ^ 12 * p ^ 6 * q ^ 6 * (Nm - p) ^ 4 * Nm ^ 4 in
  disc =? predicted_disc.

(** ** goldbach_scanner_v2.py *)

(** Index of a sequence of length [len]: a negative index counts from the
    end, anything outside raises [IndexError]. *)
Definition norm_index (len : nat) (i : Z) : outcome nat :=
  let k := if i <? 0 then i + Z.of_nat len else i in
  if (0 <=? k) && (k <? Z.of_nat len) then Ret (Z.to_nat k) else Raise IndexError.

(** [t[i]] *)
Definition getitem (t : list Z) (i : Z) : outcome Z :=
  let* k := norm_index (length t) i in
  match t !! k with
  | Some x => Ret x
  | None => Raise IndexError
  end.

(** [t[i] = x] *)
Definition setitem (t : list Z) (i x : Z) : outcome (list Z) :=
  let* k := norm_index (length t) i in
  Ret (<[k := x]> t).

(** The indices of [t[start::step]] for [0 <= start] and [1 <= step], the
    only slices the sieve takes: [range(start, len, step)], of length
    [(len - start + step - 1) // step] when that is positive. *)
Definition slice_indices (len start step : Z) : list Z :=
  map (fun m => start + m * step) (py_range 0 ((len - start + step - 1) / step)).

(** [t[start::step] = bytearray(len(t[start::step]))]: the right-hand side is
    as long as the slice, so the assignment never fails on lengths. *)
Definition zero_slice (t : list Z) (start step : Z) : outcome (list Z) :=
  if step =? 0 then Raise ValueError
  else
    let idx := slice_indices (Z.of_nat (length t)) start step in
    let zeros := replicate (length idx) 0 in
    Ret (fold_left (fun t kx => <[Z.to_nat (fst kx) := snd kx]> t) (zip idx zeros) t).

(** One turn of the sieve's loop. *)
Definition sieve_step (is_prime : list Z) (i : Z) : outcome (list Z) :=
  let* x := getitem is_prime i in
  if negb (x =? 0) then zero_slice is_prime (i * i) i else Ret is_prime.

(** [sieve_of_eratosthenes(limit)] *)
Definition sieve_of_eratosthenes (limit : Z) : outcome (list Z) :=
  let is_prime := replicate (Z.to_nat (limit + 1)) 1 in
  let* is_prime := setitem is_prime 0 0 in
  let* is_prime := setitem is_prime 1 0 in
  let* r := isqrt limit in
  for_each sieve_step (py_range 2 (r + 1)) is_prime.

(** [enumerate(l)] *)
Definition enumerate {A : Type} (l : list A) : list (Z * A) :=
  zip (py_range 0 (Z.of_nat (length l))) l.

(** [[i for i, x in enumerate(is_prime) if x]] *)
Definition primes_of (is_prime : list Z) : list Z :=
  map fst (List.filter (fun ix => negb (snd ix =? 0)) (enumerate is_prime)).

(** The counting loop of the scan for one [n], from [count]:
    [for p in primes: if p >= n: break; if p > 1 and n - p > 1 and
    is_prime[n - p]: count += 1]. *)
Fixpoint count_loop (is_prime : list Z) (n : Z) (primes : list Z) (count : Z)
  : outcome Z :=
  match primes with
  | [] => Ret count
  | p :: rest =>
      if p >=? n then Ret count
      else if (1 <? p) && (1 <? n - p) then
        let* x := getitem is_prime (n - p) in
        if negb (x =? 0) then count_loop is_prime n rest (count + 1)
        else count_loop is_prime n rest count
      else count_loop is_prime n rest count
  end.

(** The count the scan records for [n], on a sieve up to [limit]. *)
Definition goldbach_count (limit n : Z) : outcome Z :=
  let* is_prime := sieve_of_eratosthenes limit in
  let primes := primes_of is_prime in
  count_loop is_prime n primes 0.

(** [int] to [float], for [0 <= z]; exact below 2^53, which covers the scan
    (every operand of a division there is positive and at most [n]). *)
Definition float_of_int (z : Z) : float := PrimFloat.of_uint63 (Uint63.of_Z z).

(** [a / b] on two ints: the quotient rounded once, which for operands below
    2^53 is the quotient of the two floats. *)
Definition true_div (a b : Z) : outcome float :=
  if b =? 0 then Raise ZeroDivisionError
  else Ret (PrimFloat.div (float_of_int a) (float_of_int b)).

(** [while temp % p == 0: temp //= p] *)
Fixpoint strip_loop (fuel : nat) (temp p : Z) : outcome Z :=
  match fuel with
  | O => OutOfFuel
  | S fuel' =>
      let* r := py_mod temp p in
      if r =? 0 then
        let* temp := py_floordiv temp p in
        strip_loop fuel' temp p
      else Ret temp
  end.

(** The [for p in primes] loop of [wormhole_factor], on the pair
    [(factor, temp)]. *)
Fixpoint wormhole_loop (fuel : nat) (limit : Z) (primes : list Z)
  (factor : float) (temp : Z) : outcome (float * Z) :=
  match primes with
  | [] => Ret (factor, temp)
  | p :: rest =>
      if p >? limit then Ret (factor, temp)
      else if 2 <? p then
        let* r := py_mod temp p in
        if r =? 0 then
          let* c := true_div (p - 1) (p - 2) in
          let factor := PrimFloat.mul factor c in
          let* temp := strip_loop fuel temp p in
          wormhole_loop fuel limit rest factor temp
        else wormhole_loop fuel limit rest factor temp
      else wormhole_loop fuel limit rest factor temp
  end.

(** [wormhole_factor(n, primes)] *)
Definition wormhole_factor (fuel : nat) (n : Z) (primes : list Z) : outcome float :=
  let factor := 1%float in
  let temp := n in
  let* limit := isqrt n in
  let* ft := wormhole_loop fuel limit primes factor temp in
  let factor := fst ft in
  let temp := snd ft in
  if 2 <? temp then
    let* c := true_div (temp - 1) (temp - 2) in
    Ret (PrimFloat.mul factor c)
  else Ret factor.

(** The factor the scan records for [n], on a sieve up to [limit]:
    [wf = wormhole_factor(n, primes)]. *)
Definition scan_wormhole (fuel : nat) (limit n : Z) : outcome float :=
  let* is_prime := sieve_of_eratosthenes limit in
  let primes := primes_of is_prime in
  wormhole_factor fuel n primes.

(** [classify_orbit(n)] *)
Definition classify_orbit (n : Z) : string :=
  if n mod 6 =? 0 then "Resonant (mod 6)"%string
  else if n mod 3 =? 0 then "Stable (mod 3)"%string
  else "Generic"%string.

(** ** Specifications *)

(** [k] has a divisor [d] with [2 <= d <= m] and [d * d <= k]: what the
    sieve has struck after the turn for [m]. *)
Definition struck (m k : Z) : Prop :=
  exists d : Z, 2 <= d <= m /\ (d | k) /\ d * d <= k.

(** The table after the turns up to [m], on indices up to [limit]. *)
Definition sieved (limit m : Z) (t : list Z) : Prop :=
  Z.of_nat (length t) = limit + 1 /\
  forall k : Z, 0 <= k <= limit ->
    (t !! Z.to_nat k = Some 1 /\ 2 <= k /\ ~ struck m k) \/
    (t !! Z.to_nat k = Some 0 /\ (k < 2 \/ struck m k)).

(** Entry [i] of the table is truthy, for an index [0 <= i]. *)
Definition marked (t : list Z) (i : Z) : bool :=
  match t !! Z.to_nat i with
  | Some x => negb (x =? 0)
  | None => false
  end.

(** The test the counting loop applies to a prime [p] below [n]. *)
Definition counted (t : list Z) (n p : Z) : bool :=
  (1 <? p) && (1 <? n - p) && marked t (n - p).

(** Primality by trial division, for the product the documentation asks. *)
Definition trial_prime (p : Z) : bool :=
  (2 <=? p) && forallb (fun d => negb (p mod d =? 0)) (py_range 2 p).

(** The product the specification asks of the singular series of an even
    [n]: one factor [(p - 1) / (p - 2)] for every odd prime [p] dividing
    [n / 2], in increasing order, and nothing else. *)
Definition singular_series_spec (n : Z) : float :=
  let N := n / 2 in
  fold_left
    (fun factor p =>
       if (2 <? p) && (N mod p =? 0) && trial_prime p
       then PrimFloat.mul factor (PrimFloat.div (float_of_int (p - 1)) (float_of_int (p - 2)))
       else factor)
    (py_range 2 (N + 1)) 1%float.

(** ** The harness of verify_discriminant.py *)

(** The table of [verify_theorem_3_2]. *)
Definition test_cases_3_2 : list (Z * Z) :=
  [(15, 7); (10, 3); (25, 7); (50, 13); (100, 29); (49, 3)].

(** One turn of the loop of [verify_theorem_3_2], on [all_pass]; the
    printing is left out. *)
Definition check_3_2 (all_pass : bool) (case : Z * Z) : bool :=
  let N := fst case in
  let p := snd case in
  let q := 2 * N - p in
  let roots := [0; p; - p; q; - q] in
  let disc := compute_discriminant roots in
  let formula := 2 ^ 12 * p ^ 6 * q ^ 6 * (N - p) ^ 4 * N ^ 4 in
  let matches := disc =? formula in
  if negb matches then false else all_pass.

(** [verify_theorem_3_2()] with its table as a parameter. *)
Definition verify_theorem_3_2_on (cases : list (Z * Z)) : bool :=
  fold_left check_3_2 cases true.

Definition verify_theorem_3_2 : bool := verify_theorem_3_2_on test_cases_3_2.

(** [p % r == 0 or q % r == 0 or (N - p) % r == 0], left to right. *)
Definition hypothesis_violated (N p q r : Z) : outcome bool :=
  let* a := py_mod p r in
  if a =? 0 then Ret true
  else
    let* b := py_mod q r in
    if b =? 0 then Ret true
    else
      let* c := py_mod (N - p) r in
      Ret (c =? 0).

(** [4 * v] on what [ord_p] returns: four times infinity is infinity. *)
Definition times_4 (v : valuation) : valuation :=
  match v with
  | Infinite => Infinite
  | Finite v => Finite (4 * v)
  end.

(** [v == w] on what [ord_p] returns: no int equals infinity. *)
Definition valuation_eqb (v w : valuation) : bool :=
  match v, w with
  | Infinite, Infinite => true
  | Finite a, Finite b => a =? b
  | _, _ => false
  end.

(** The table of [verify_theorem_5_1]: [(N, p, r, expected_v)]. *)
Definition test_cases_5_1 : list (Z * Z * Z * Z) :=
  [(15, 7, 3, 1); (15, 7, 5, 1); (49, 3, 7, 2); (125, 7, 5, 3);
   (21, 5, 3, 1); (21, 5, 7, 1); (27, 5, 3, 3)].

(** One turn of the loop of [verify_theorem_5_1], on [all_pass]; the fourth
    component of a case is unpacked and never read. *)
Definition check_5_1 (fuel : nat) (all_pass : bool) (case : Z * Z * Z * Z)
  : outcome bool :=
  let N := fst (fst (fst case)) in
  let p := snd (fst (fst case)) in
  let r := snd (fst case) in
  let q := 2 * N - p in
  let* skip := hypothesis_violated N p q r in
  if skip then Ret all_pass
  else
    let roots := [0; p; - p; q; - q] in
    let disc := compute_discriminant roots in
    let* v_r := ord_p fuel disc r in
    let* v_N := ord_p fuel N r in
    let expected := times_4 v_N in
    let matches := valuation_eqb v_r expected in
    if negb matches then Ret false else Ret all_pass.

(** [verify_theorem_5_1()] with its table as a parameter. *)
Definition verify_theorem_5_1_on (fuel : nat) (cases : list (Z * Z * Z * Z))
  : outcome bool :=
  for_each (check_5_1 fuel) cases true.

Definition verify_theorem_5_1 (fuel : nat) : outcome bool :=
  verify_theorem_5_1_on fuel test_cases_5_1.

(** [range(a, b, step)] for a positive step. *)
Definition py_range_step (a b step : Z) : list Z :=
  map (fun k => a + k * step) (py_range 0 ((b - a + step - 1) / step)).

(** One turn of the loop of [verify_conduit_uniformity], on [results]. *)
Definition conduit_step (fuel : nat) (N r : Z) (results : list (Z * valuation))
  (p : Z) : outcome (list (Z * valuation)) :=
  let q := 2 * N - p in
  if (p <=? 1) || (q <=? 1) then Ret results
  else
    let* skip := hypothesis_violated N p q r in
    if skip then Ret results
    else
      let roots := [0; p; - p; q; - q] in
      let disc := compute_discriminant roots in
      let* v := ord_p fuel disc r in
      Ret (results ++ [(p, v)]).

Definition valuation_eq_dec (v w : valuation) : {v = w} + {v <> w}.
Proof. decide equality. apply Z.eq_dec. Defined.

(** The body of [verify_conduit_uniformity] for the pair [(N, r)] it fixes:
    the two header lines evaluate [ord_p(N, r)], then the loop runs over the
    odd [p] from 3, and [uniform] is [len(set(v for _, v in results)) == 1]. *)
Definition conduit_uniformity (fuel : nat) (N r : Z) : outcome bool :=
  let* _ := ord_p fuel N r in
  let* results := for_each (conduit_step fuel N r) (py_range_step 3 (2 * N) 2) [] in
  let vals := nodup valuation_eq_dec (map snd results) in
  Ret (length vals =? 1)%nat.

(** [verify_conduit_uniformity()] *)
Definition verify_conduit_uniformity (fuel : nat) : outcome bool :=
  conduit_uniformity fuel 15 5.

(** ** Further specifications *)

(** The product of a list of integers. *)
Fixpoint list_prod (l : list Z) : Z :=
  match l with
  | [] => 1
  | x :: l => x * list_prod l
  end.

(** The squared differences of [x] to the roots that follow it. *)
Definition squared_differences (x : Z) (following : list Z) : list Z :=
  map (fun y => (x - y) ^ 2) following.

(** A prime [p] the counting loop takes for [n]. *)
Definition goldbach_pair (n p : Z) : Prop :=
  2 <= p < n /\ Z.prime p /\ Z.prime (n - p).

(** A case [(N, p, r, _)] inside the hypotheses of theorem 5.1: an odd
    prime [r], and [p] strictly between 0 and 2N. *)
Definition odd_prime_case (case : Z * Z * Z * Z) : Prop :=
  let N := fst (fst (fst case)) in
  let p := snd (fst (fst case)) in
  let r := snd (fst case) in
  1 <= N /\ 0 < p < 2 * N /\ Z.prime r /\ 2 < r.

(** A [p] that the loop of [verify_conduit_uniformity] records for [(N, r)]. *)
Definition recorded (N r p : Z) : bool :=
  negb ((p <=? 1) || (2 * N - p <=? 1))
  && negb (p mod r =? 0) && negb ((2 * N - p) mod r =? 0)
  && negb ((N - p) mod r =? 0).

(** The factor of one prime: [(p - 1) / (p - 2)] on ints. *)
Definition prime_ratio (p : Z) : float :=
  PrimFloat.div (float_of_int (p - 1)) (float_of_int (p - 2)).

(** The product the docstring of [wormhole_factor] writes, over a list of
    primes in the order of the list: one factor for every [p > 2] of the
    list that divides [n]. *)
Definition odd_prime_product (n : Z) (primes : list Z) : float :=
  fold_left
    (fun factor p =>
       if (2 <? p) && (n mod p =? 0) then PrimFloat.mul factor (prime_ratio p)
       else factor)
    primes 1%float.

(** ** Theorems *)

Section Discriminant.

Lemma fold_left_mul_sq_nonneg (f : Z -> Z) (js : list Z) (d : Z) :
  0 <= d -> 0 <= fold_left (fun disc j => disc * f j ^ 2) js d.
Proof.
  revert d. induction js as [|j js IH]; intros d Hd; simpl.
  - exact Hd.
  - apply IH. apply Z.mul_nonneg_nonneg; [exact Hd|]. apply Z.pow_even_nonneg.
    exists 1. reflexivity.
Qed.

Lemma outer_loop_nonneg (roots rng : list Z) (n d : Z) :
  0 <= d ->
  0 <= fold_left
         (fun disc i =>
            fold_left
              (fun disc j =>
                 disc * (nth (Z.to_nat i) roots 0 - nth (Z.to_nat j) roots 0) ^ 2)
              (py_range (i + 1) n) disc)
         rng d.
Proof.
  revert d. induction rng as [|i rng IH]; intros d Hd; simpl.
  - exact Hd.
  - apply IH.
    apply (fold_left_mul_sq_nonneg
             (fun j => nth (Z.to_nat i) roots 0 - nth (Z.to_nat j) roots 0)).
    exact Hd.
Qed.

Lemma frey_discriminant_unfold (a b c d e : Z) :
  compute_discriminant [a; b; c; d; e] =
  1 * (a - b) ^ 2 * (a - c) ^ 2 * (a - d) ^ 2 * (a - e) ^ 2
    * (b - c) ^ 2 * (b - d) ^ 2 * (b - e) ^ 2
    * (c - d) ^ 2 * (c - e) ^ 2
    * (d - e) ^ 2.
Proof. reflexivity. Qed.

Lemma frey_discriminant_closed_form (N p : Z) :
  compute_discriminant (frey_roots N p) = formula N p.
Proof.
  unfold frey_roots, formula. cbv zeta.
  rewrite frey_discriminant_unfold. ring.
Qed.

End Discriminant.

(** C1: for every N and p (so in particular for N >= 1 and 0 < p < 2N),
    with q = 2N - p, the discriminant of the roots 0, p, -p, q, -q, the
    product over the index pairs i < j of the squared differences, is
    exactly 2^12 p^6 q^6 (N-p)^4 N^4. *)
Theorem discriminant_formula (N p : Z) :
  1 <= N -> 0 < p < 2 * N ->
  compute_discriminant (frey_roots N p) = formula N p.
Proof.
  intros _ _. apply frey_discriminant_closed_form.
Qed.

Lemma discriminant_formula_witness :
  compute_discriminant (frey_roots 15 7) = formula 15 7.
Proof. apply discriminant_formula; lia. Defined.

(** The inlined check of the scanner agrees at its fixed test pair. *)
Example mirror_disc_check_true : mirror_disc_check = true.
Proof. vm_compute. reflexivity. Qed.

(** C10: the discriminant of any list of integer roots, the empty list
    included, is non-negative. *)
Theorem compute_discriminant_nonneg (roots : list Z) :
  0 <= compute_discriminant roots.
Proof.
  unfold compute_discriminant. apply outer_loop_nonneg. lia.
Qed.

Section Valuation.

Variable p : Z.
Hypothesis p_ge_2 : 2 <= p.

(** Each turn of the loop shrinks the cofactor. *)
Lemma cofactor_decreases (n : Z) :
  n <> 0 -> n mod p = 0 -> Z.abs (n / p) < Z.abs n.
Proof.
  intros Hn Hmod.
  assert (Hq : n = p * (n / p)) by (apply Z_div_exact_full_2; lia).
  assert (n / p <> 0) by (intros E; rewrite E in Hq; lia).
  nia.
Qed.

Lemma ord_p_loop_pow (k : nat) :
  forall (m v : Z) (fuel : nat),
    m mod p <> 0 -> (k < fuel)%nat ->
    ord_p_loop fuel (p ^ Z.of_nat k * m) p v = Ret (v + Z.of_nat k).
Proof.
  induction k as [|k IH]; intros m v fuel Hm Hfuel;
    (destruct fuel as [|fuel]; [lia|]); simpl ord_p_loop; unfold py_mod, py_floordiv;
    (destruct (Z.eqb_spec p 0) as [|_]; [lia|]); cbn [bind].
  - rewrite Z.pow_0_r, Z.mul_1_l.
    destruct (Z.eqb_spec (m mod p) 0); [contradiction|]. f_equal. lia.
  - replace (p ^ Z.of_nat (S k) * m) with (p ^ Z.of_nat k * m * p)
      by (rewrite Nat2Z.inj_succ, Z.pow_succ_r by lia; ring).
    rewrite Z.mod_mul by lia. rewrite Z.eqb_refl.
    rewrite Z.div_mul by lia.
    rewrite IH by (assumption || lia). f_equal. lia.
Qed.

(** Every non-zero integer is a power of [p] times a cofactor [p] does not
    divide. *)
Lemma split_power (n : Z) :
  n <> 0 -> exists (k : nat) (m : Z), n = p ^ Z.of_nat k * m /\ m mod p <> 0.
Proof.
  assert (H : forall (b : nat) (n : Z), Z.abs n < Z.of_nat b -> n <> 0 ->
            exists (k : nat) (m : Z), n = p ^ Z.of_nat k * m /\ m mod p <> 0).
  { induction b as [|b IH]; intros x Hb Hx; [lia|].
    destruct (Z.eq_dec (x mod p) 0) as [E|E].
    - pose proof (cofactor_decreases x Hx E) as Hlt.
      assert (Hq : x = p * (x / p)) by (apply Z_div_exact_full_2; lia).
      assert (Hne : x / p <> 0) by (intros E0; rewrite E0 in Hq; lia).
      destruct (IH (x / p) ltac:(lia) Hne) as (k & m & Hkm & Hm).
      exists (S k), m. split; [|exact Hm].
      rewrite Nat2Z.inj_succ, Z.pow_succ_r by lia.
      rewrite Hq at 1. rewrite Hkm at 1. ring.
    - exists O, x. split; [rewrite Z.pow_0_r; ring|exact E]. }
  intros Hn. apply (H (Z.to_nat (Z.abs n + 1)) n); [lia|exact Hn].
Qed.

Lemma ord_p_of_power (k : nat) (m : Z) :
  m mod p <> 0 ->
  returns (fun fuel => ord_p fuel (p ^ Z.of_nat k * m) p) (Finite (Z.of_nat k)).
Proof.
  intros Hm. exists (S k). intros fuel Hfuel. unfold ord_p.
  assert (Hnz : p ^ Z.of_nat k * m <> 0).
  { intros E. apply Z.mul_eq_0 in E. destruct E as [E|E].
    - apply Z.pow_eq_0_iff in E. lia.
    - subst m. rewrite Z.mod_0_l in Hm by lia. contradiction. }
  destruct (Z.eqb_spec (p ^ Z.of_nat k * m) 0); [contradiction|].
  rewrite ord_p_loop_pow by (assumption || lia). reflexivity.
Qed.

End Valuation.

Lemma returns_inj {A : Type} (run : nat -> outcome A) (a b : A) :
  returns run a -> returns run b -> a = b.
Proof.
  intros [k1 H1] [k2 H2].
  specialize (H1 (Nat.max k1 k2) ltac:(lia)).
  specialize (H2 (Nat.max k1 k2) ltac:(lia)).
  congruence.
Qed.

(** C8: for every integer value and every p >= 2 (primes among them),
    [ord_p] returns: at value 0 it gives the infinite sentinel with no turn
    of the loop, whatever the fuel; at a non-zero value every turn of the
    loop strictly shrinks the absolute value of the cofactor, and the call
    returns a non-negative integer. *)
Theorem ord_p_terminates (value prime : Z) :
  2 <= prime ->
  (value = 0 -> forall fuel : nat, ord_p fuel value prime = Ret Infinite) /\
  (value <> 0 ->
     (forall n : Z, n <> 0 -> n mod prime = 0 -> Z.abs (n / prime) < Z.abs n) /\
     exists v : Z, 0 <= v /\ returns (fun fuel => ord_p fuel value prime) (Finite v)).
Proof.
  intros Hp. split.
  - intros -> fuel. reflexivity.
  - intros Hv. split.
    + intros n. apply cofactor_decreases. exact Hp.
    + destruct (split_power prime Hp value Hv) as (k & m & -> & Hm).
      exists (Z.of_nat k). split; [lia|]. apply ord_p_of_power; assumption.
Qed.

Lemma ord_p_terminates_witness :
  (-24 = 0 -> forall fuel : nat, ord_p fuel (-24) 2 = Ret Infinite) /\
  (-24 <> 0 ->
     (forall n : Z, n <> 0 -> n mod 2 = 0 -> Z.abs (n / 2) < Z.abs n) /\
     exists v : Z, 0 <= v /\ returns (fun fuel => ord_p fuel (-24) 2) (Finite v)).
Proof. apply (ord_p_terminates (-24) 2). lia. Defined.

Section StaticConduit.

Variable r : Z.
Hypothesis r_prime : Z.prime r.

Lemma prime_ge_2' : 2 <= r.
Proof. apply Z.prime_ge_2. exact r_prime. Qed.

Lemma not_divide_mul (a b : Z) : ~ (r | a) -> ~ (r | b) -> ~ (r | a * b).
Proof.
  intros Ha Hb Hab. apply Z.divide_prime_mul in Hab; [|exact r_prime].
  destruct Hab; contradiction.
Qed.

Lemma not_divide_pow (a : Z) (n : nat) : ~ (r | a) -> ~ (r | a ^ Z.of_nat n).
Proof.
  intros Ha. induction n as [|n IH].
  - rewrite Z.pow_0_r. intros H. apply Z.divide_1_r_nonneg in H; [|pose proof prime_ge_2'; lia].
    pose proof prime_ge_2'. lia.
  - rewrite Nat2Z.inj_succ, Z.pow_succ_r by lia. apply not_divide_mul; assumption.
Qed.

Lemma not_divide_mod (a : Z) : ~ (r | a) -> a mod r <> 0.
Proof.
  intros Ha E. apply Ha. apply Z.mod_divide; [pose proof prime_ge_2'; lia|exact E].
Qed.

(** The valuation of the closed form at a prime away from 2, p, q, N - p. *)
Lemma formula_valuation (N p : Z) (k : nat) (m : Z) :
  2 < r -> ~ (r | p) -> ~ (r | 2 * N - p) -> ~ (r | N - p) ->
  N = r ^ Z.of_nat k * m -> m mod r <> 0 ->
  returns (fun fuel => ord_p fuel (formula N p) r) (Finite (4 * Z.of_nat k)).
Proof.
  intros Hr Hp Hq Hd HN Hm.
  assert (H2 : ~ (r | 2)).
  { intros H. apply Z.divide_pos_le in H; lia. }
  assert (Hm' : ~ (r | m)).
  { intros H. apply Hm. apply Z.mod_divide; [lia|exact H]. }
  set (c := 2 ^ Z.of_nat 12 * p ^ Z.of_nat 6 * (2 * N - p) ^ Z.of_nat 6
            * (N - p) ^ Z.of_nat 4 * m ^ Z.of_nat 4).
  assert (Hc : ~ (r | c)).
  { unfold c.
    apply not_divide_mul;
      [apply not_divide_mul;
         [apply not_divide_mul; [apply not_divide_mul|]|]|];
      apply not_divide_pow; assumption. }
  assert (E : formula N p = r ^ Z.of_nat (4 * k) * c).
  { unfold formula, c. cbv zeta. rewrite HN at 3.
    rewrite Z.pow_mul_l, <- Z.pow_mul_r by lia.
    replace (Z.of_nat k * 4) with (Z.of_nat (4 * k)) by lia.
    change (Z.of_nat 12) with 12. change (Z.of_nat 6) with 6.
    change (Z.of_nat 4) with 4. ring. }
  rewrite E. replace (4 * Z.of_nat k) with (Z.of_nat (4 * k)) by lia.
  apply ord_p_of_power; [apply prime_ge_2'|apply not_divide_mod; exact Hc].
Qed.

End StaticConduit.

(** C2, amended: for every N >= 1, every p with 0 < p < 2N (q = 2N - p) and
    every odd prime r that does not divide p q (N - p), [ord_p] of the
    discriminant of 0, p, -p, q, -q at r is 4 times [ord_p] of N at r. *)
Theorem ord_p_discriminant_odd (N p r : Z) :
  1 <= N -> 0 < p < 2 * N -> Z.prime r -> 2 < r ->
  ~ (r | p * (2 * N - p) * (N - p)) ->
  exists v : Z,
    returns (fun fuel => ord_p fuel N r) (Finite v) /\
    returns (fun fuel => ord_p fuel (compute_discriminant (frey_roots N p)) r)
            (Finite (4 * v)).
Proof.
  intros HN Hp Hr Hodd Hnd.
  assert (Hr2 : 2 <= r) by lia.
  destruct (split_power r Hr2 N ltac:(lia)) as (k & m & HNk & Hm).
  exists (Z.of_nat k). split.
  - rewrite HNk. apply ord_p_of_power; assumption.
  - rewrite frey_discriminant_closed_form.
    apply (formula_valuation r Hr N p k m); try assumption.
    + intros H. apply Hnd. apply Z.divide_mul_l, Z.divide_mul_l. exact H.
    + intros H. apply Hnd. apply Z.divide_mul_l, Z.divide_mul_r. exact H.
    + intros H. apply Hnd. apply Z.divide_mul_r. exact H.
Qed.

Lemma prime_7 : Z.prime 7.
Proof.
  split; [lia|]. intros n Hn [x Hx].
  assert (n = 2 \/ n = 3 \/ n = 4 \/ n = 5 \/ n = 6) as Hc by lia.
  destruct Hc as [->|[->|[->|[->| ->]]]]; lia.
Qed.

Lemma not_divide_by_mod (a b : Z) : 0 < b -> a mod b <> 0 -> ~ (b | a).
Proof. intros Hb Hm H. apply Hm. apply Z.mod_divide; [lia|exact H]. Qed.

Lemma ord_p_discriminant_odd_witness :
  exists v : Z,
    returns (fun fuel => ord_p fuel 49 7) (Finite v) /\
    returns (fun fuel => ord_p fuel (compute_discriminant (frey_roots 49 3)) 7)
            (Finite (4 * v)).
Proof.
  apply (ord_p_discriminant_odd 49 3 7); [lia|lia|exact prime_7|lia|].
  apply not_divide_by_mod; [lia|]. vm_compute. discriminate.
Defined.

(** C2 as stated fails at the prime 2: for N = 2 and p = 1 the prime 2
    divides none of p, q = 3 and N - p = 1, yet the discriminant
    2^16 3^6 has valuation 16 at 2 while N has valuation 1. *)
Lemma ord_p_discriminant_fails_at_2 :
  ~ (forall N p r : Z,
       1 <= N -> 0 < p < 2 * N -> Z.prime r ->
       ~ (r | p * (2 * N - p) * (N - p)) ->
       exists v : Z,
         returns (fun fuel => ord_p fuel N r) (Finite v) /\
         returns (fun fuel => ord_p fuel (compute_discriminant (frey_roots N p)) r)
                 (Finite (4 * v))).
Proof.
  intros H.
  destruct (H 2 1 2 ltac:(lia) ltac:(lia) Z.prime_2) as (v & Hv & Hd).
  { apply not_divide_by_mod; [lia|]. vm_compute. discriminate. }
  assert (H1 : returns (fun fuel => ord_p fuel 2 2) (Finite 1)).
  { exists 5%nat. intros fuel Hf. do 5 (destruct fuel as [|fuel]; [lia|]). reflexivity. }
  assert (H16 : returns (fun fuel => ord_p fuel (compute_discriminant (frey_roots 2 1)) 2)
                        (Finite 16)).
  { apply (ord_p_of_power 2 ltac:(lia) 16 729). vm_compute. discriminate. }
  pose proof (returns_inj _ _ _ Hv H1) as E1.
  pose proof (returns_inj _ _ _ Hd H16) as E2.
  injection E1 as ->. injection E2 as E2. lia.
Qed.

(** C9: on every even positive n, [classify_orbit] gives the resonant or
    the generic label and never the middle one. *)
Theorem classify_orbit_even (n : Z) :
  0 < n -> n mod 2 = 0 ->
  (classify_orbit n = "Resonant (mod 6)"%string \/
   classify_orbit n = "Generic"%string) /\
  classify_orbit n <> "Stable (mod 3)"%string.
Proof.
  intros _ Heven. unfold classify_orbit.
  destruct (Z.eqb_spec (n mod 6) 0) as [H6|H6].
  - split; [left; reflexivity|discriminate].
  - destruct (Z.eqb_spec (n mod 3) 0) as [H3|H3].
    + exfalso. apply H6. revert Heven H3. Z.div_mod_to_equations. lia.
    + split; [right; reflexivity|discriminate].
Qed.

Lemma classify_orbit_even_witness :
  (classify_orbit 10000002 = "Resonant (mod 6)"%string \/
   classify_orbit 10000002 = "Generic"%string) /\
  classify_orbit 10000002 <> "Stable (mod 3)"%string.
Proof. apply (classify_orbit_even 10000002); [lia|reflexivity]. Defined.

Section Ranges.

Lemma py_range_nil (a b : Z) : b <= a -> py_range a b = [].
Proof.
  intros H. unfold py_range. replace (Z.to_nat (b - a)) with O by lia. reflexivity.
Qed.

Lemma py_range_cons (a b : Z) : a < b -> py_range a b = a :: py_range (a + 1) b.
Proof.
  intros H. unfold py_range.
  replace (Z.to_nat (b - a)) with (S (Z.to_nat (b - (a + 1)))) by lia.
  cbn [seq map]. f_equal; [lia|].
  rewrite <- seq_shift, map_map. apply map_ext. intros k. lia.
Qed.

Lemma in_py_range (a b x : Z) : In x (py_range a b) <-> a <= x < b.
Proof.
  unfold py_range. rewrite in_map_iff. split.
  - intros (k & <- & Hk). apply in_seq in Hk. lia.
  - intros Hx. exists (Z.to_nat (x - a)). split; [lia|]. apply in_seq. lia.
Qed.

Lemma length_py_range (a b : Z) : length (py_range a b) = Z.to_nat (b - a).
Proof. unfold py_range. rewrite length_map, length_seq. reflexivity. Qed.

Lemma in_slice_indices (len start step k : Z) :
  0 <= start -> 1 <= step ->
  In k (slice_indices len start step) <->
  start <= k < len /\ (step | k - start).
Proof.
  intros Hs Hstep. unfold slice_indices. rewrite in_map_iff. split.
  - intros (m & <- & Hm). apply in_py_range in Hm.
    assert (Hq : step * ((len - start + step - 1) / step) <= len - start + step - 1)
      by (apply Z.mul_div_le; lia).
    split; [nia|]. exists m. ring.
  - intros [Hk [m Hm]]. exists m. split; [lia|]. apply in_py_range.
    assert (0 <= m) by nia.
    split; [lia|].
    apply Z.lt_le_trans with (m + 1); [lia|].
    apply Z.div_le_lower_bound; [lia|nia].
Qed.

End Ranges.

Section Bytearray.

Lemma norm_index_in_range (len : nat) (i : Z) :
  0 <= i < Z.of_nat len -> norm_index len i = Ret (Z.to_nat i).
Proof.
  intros H. unfold norm_index.
  destruct (Z.ltb_spec i 0); [lia|].
  destruct (Z.leb_spec 0 i); [|lia].
  destruct (Z.ltb_spec i (Z.of_nat len)); [|lia]. reflexivity.
Qed.

Lemma getitem_lookup (t : list Z) (i x : Z) :
  0 <= i -> t !! Z.to_nat i = Some x -> getitem t i = Ret x.
Proof.
  intros Hi Hx. unfold getitem.
  pose proof (lookup_lt_Some _ _ _ Hx) as Hlt.
  rewrite norm_index_in_range by lia. cbn [bind]. rewrite Hx. reflexivity.
Qed.

Lemma setitem_in_range (t : list Z) (i x : Z) :
  0 <= i < Z.of_nat (length t) -> setitem t i x = Ret (<[Z.to_nat i := x]> t).
Proof.
  intros H. unfold setitem. rewrite norm_index_in_range by lia. reflexivity.
Qed.

Lemma zip_zeros (idx : list Z) :
  zip idx (replicate (length idx) 0) = map (fun k => (k, 0)) idx.
Proof. induction idx as [|k idx IH]; simpl; [reflexivity|]. f_equal. exact IH. Qed.

Lemma fold_insert_zero_length (idx : list Z) (t : list Z) :
  length (fold_left (fun t kx => <[Z.to_nat (fst kx) := snd kx]> t)
                    (map (fun k => (k, 0)) idx) t) = length t.
Proof.
  revert t. induction idx as [|k idx IH]; intros t; simpl; [reflexivity|].
  rewrite IH. apply length_insert.
Qed.

Lemma fold_insert_zero_other (idx : list Z) (t : list Z) (j : nat) :
  (forall k, In k idx -> Z.to_nat k <> j) ->
  fold_left (fun t kx => <[Z.to_nat (fst kx) := snd kx]> t)
            (map (fun k => (k, 0)) idx) t !! j = t !! j.
Proof.
  revert t. induction idx as [|k idx IH]; intros t Hj; simpl; [reflexivity|].
  rewrite IH by (intros k' Hk'; apply Hj; right; exact Hk').
  apply list_lookup_insert_ne. apply Hj. left. reflexivity.
Qed.

Lemma classic_in (idx : list Z) (j : nat) :
  (exists k, In k idx /\ Z.to_nat k = j) \/ (forall k, In k idx -> Z.to_nat k <> j).
Proof.
  induction idx as [|k idx [(k' & Hin & Hk')|IH]].
  - right. intros k [].
  - left. exists k'. split; [right; exact Hin|exact Hk'].
  - destruct (Nat.eq_dec (Z.to_nat k) j) as [E|E].
    + left. exists k. split; [left; reflexivity|exact E].
    + right. intros k' [<-|Hin]; [exact E|apply IH; exact Hin].
Qed.

Lemma fold_insert_zero_hit (idx : list Z) (t : list Z) (j : nat) :
  (exists k, In k idx /\ Z.to_nat k = j) -> (j < length t)%nat ->
  fold_left (fun t kx => <[Z.to_nat (fst kx) := snd kx]> t)
            (map (fun k => (k, 0)) idx) t !! j = Some 0.
Proof.
  revert t. induction idx as [|k idx IH]; intros t (k' & Hin & Hk') Hlt; simpl.
  - destruct Hin.
  - destruct (classic_in idx j) as [Hlater|Hnot].
    + apply IH; [exact Hlater|rewrite length_insert; exact Hlt].
    + rewrite fold_insert_zero_other by exact Hnot.
      destruct Hin as [->|Hin].
      * cbn [fst snd]. rewrite Hk'. apply list_lookup_insert_eq. exact Hlt.
      * exfalso. apply (Hnot k' Hin). exact Hk'.
Qed.

End Bytearray.

Section Sieve.

Lemma zero_slice_spec (t : list Z) (start step : Z) :
  0 <= start -> 1 <= step ->
  exists t' : list Z,
    zero_slice t start step = Ret t' /\
    length t' = length t /\
    (forall k, start <= k < Z.of_nat (length t) -> (step | k - start) ->
               t' !! Z.to_nat k = Some 0) /\
    (forall k, 0 <= k -> ~ (start <= k /\ (step | k - start)) ->
               t' !! Z.to_nat k = t !! Z.to_nat k).
Proof.
  intros Hs Hstep. unfold zero_slice.
  destruct (Z.eqb_spec step 0); [lia|].
  eexists. split; [reflexivity|]. rewrite zip_zeros.
  split; [apply fold_insert_zero_length|]. split.
  - intros k Hk Hdiv. apply fold_insert_zero_hit; [|lia].
    exists k. split; [|reflexivity]. apply in_slice_indices; [lia|lia|]. split; assumption.
  - intros k Hk Hout. apply fold_insert_zero_other.
    intros k' Hin E. apply in_slice_indices in Hin; [|lia|lia].
    assert (k' = k) by lia. subst k'. apply Hout. split; [lia|tauto].
Qed.

Lemma struck_mono (m m' k : Z) : m <= m' -> struck m k -> struck m' k.
Proof. intros H (d & Hd & Hdiv & Hsq). exists d. repeat split; try assumption; lia. Qed.

(** A struck [m] adds nothing: its multiples from [m * m] on are struck
    already. *)
Lemma struck_skip (m k : Z) : struck (m - 1) m -> struck m k -> struck (m - 1) k.
Proof.
  intros (d & Hd & Hdm & Hsq) (d' & Hd' & Hdk & Hsq').
  destruct (Z.eq_dec d' m) as [->|Hne].
  - exists d. split; [lia|]. split; [apply Z.divide_trans with m; assumption|nia].
  - exists d'. split; [lia|]. split; assumption.
Qed.

Lemma struck_last (m k : Z) :
  struck m k -> struck (m - 1) k \/ ((m | k) /\ m * m <= k /\ 2 <= m).
Proof.
  intros (d & Hd & Hdk & Hsq).
  destruct (Z.eq_dec d m) as [->|Hne].
  - right. repeat split; try assumption; lia.
  - left. exists d. split; [lia|]. split; assumption.
Qed.

Lemma divide_shift (m k : Z) : (m | k - m * m) <-> (m | k).
Proof.
  split; intros [c Hc].
  - exists (c + m). lia.
  - exists (c - m). lia.
Qed.

Lemma sieve_step_sieved (limit m : Z) (t : list Z) :
  2 <= m <= limit -> sieved limit (m - 1) t ->
  exists t' : list Z, sieve_step t m = Ret t' /\ sieved limit m t'.
Proof.
  intros Hm [Hlen Ht]. unfold sieve_step.
  destruct (Ht m ltac:(lia)) as [(Hx & _ & Hns)|(Hx & Hs)].
  - (* m is unmarked: strike its multiples from m * m on *)
    rewrite (getitem_lookup t m 1) by (lia || exact Hx). cbn [bind].
    change (negb (1 =? 0)) with true. cbv iota.
    destruct (zero_slice_spec t (m * m) m ltac:(nia) ltac:(lia))
      as (t' & -> & Hlen' & Hhit & Hmiss).
    exists t'. split; [reflexivity|]. split; [lia|].
    intros k Hk.
    destruct (Z_le_dec (m * m) k) as [Hsq|Hsq];
      [destruct (Z.BoolSpec_divide m k) as [Hdiv|Hdiv]|].
    + right. split.
      * apply Hhit; [lia|]. apply divide_shift. exact Hdiv.
      * right. exists m. split; [lia|]. split; assumption.
    + rewrite Hmiss by (lia || rewrite divide_shift; tauto).
      destruct (Ht k Hk) as [(Hk1 & Hk2 & Hk3)|(Hk0 & Hk')].
      * left. repeat split; try assumption.
        intros Hst. apply struck_last in Hst. tauto.
      * right. split; [exact Hk0|].
        destruct Hk' as [?|Hst]; [left; assumption|right].
        apply (struck_mono (m - 1)); [lia|exact Hst].
    + rewrite Hmiss by (lia || tauto).
      destruct (Ht k Hk) as [(Hk1 & Hk2 & Hk3)|(Hk0 & Hk')].
      * left. repeat split; try assumption.
        intros Hst. apply struck_last in Hst. destruct Hst as [?|(_ & ? & _)]; [tauto|lia].
      * right. split; [exact Hk0|].
        destruct Hk' as [?|Hst]; [left; assumption|right].
        apply (struck_mono (m - 1)); [lia|exact Hst].
  - (* m is marked already: the table stays *)
    rewrite (getitem_lookup t m 0) by (lia || exact Hx). cbn [bind].
    change (negb (0 =? 0)) with false. cbv iota.
    destruct Hs as [?|Hs]; [lia|].
    exists t. split; [reflexivity|]. split; [exact Hlen|].
    intros k Hk.
    destruct (Ht k Hk) as [(Hk1 & Hk2 & Hk3)|(Hk0 & Hk')].
    + left. repeat split; try assumption.
      intros Hst. apply Hk3. apply struck_skip; assumption.
    + right. split; [exact Hk0|].
      destruct Hk' as [?|Hst]; [left; assumption|right].
      apply (struck_mono (m - 1)); [lia|exact Hst].
Qed.

Lemma sieve_loop_sieved (limit r : Z) :
  r <= limit ->
  forall (j : nat) (m : Z) (t : list Z),
    2 <= m -> m + Z.of_nat j = r + 1 -> sieved limit (m - 1) t ->
    exists t' : list Z,
      for_each sieve_step (py_range m (r + 1)) t = Ret t' /\ sieved limit r t'.
Proof.
  intros Hr. induction j as [|j IH]; intros m t Hm Hj Ht.
  - rewrite py_range_nil by lia. exists t. split; [reflexivity|].
    replace r with (m - 1) by lia. exact Ht.
  - rewrite py_range_cons by lia. cbn [for_each].
    destruct (sieve_step_sieved limit m t ltac:(lia) Ht) as (t1 & -> & Ht1).
    cbn [bind]. apply IH; [lia|lia|].
    replace (m + 1 - 1) with m by lia. exact Ht1.
Qed.

End Sieve.

Section SieveResult.

Variable limit : Z.
Hypothesis limit_ge_1 : 1 <= limit.

Lemma sqrt_limit_bounds : 1 <= Z.sqrt limit <= limit.
Proof.
  split.
  - change 1 with (Z.sqrt 1). apply Z.sqrt_le_mono. exact limit_ge_1.
  - apply Z.sqrt_le_lin. lia.
Qed.

Lemma initial_table_sieved :
  sieved limit 1 (<[1%nat := 0]> (<[0%nat := 0]> (replicate (Z.to_nat (limit + 1)) 1))).
Proof.
  split.
  - rewrite !length_insert, length_replicate. lia.
  - intros k Hk.
    destruct (Z.eq_dec k 0) as [->|H0]; [|destruct (Z.eq_dec k 1) as [->|H1]].
    + right. split; [|left; lia]. change (Z.to_nat 0) with 0%nat.
      rewrite list_lookup_insert_ne by lia.
      apply list_lookup_insert_eq. rewrite length_replicate. lia.
    + right. split; [|left; lia]. change (Z.to_nat 1) with 1%nat.
      apply list_lookup_insert_eq. rewrite length_insert, length_replicate. lia.
    + left. split; [|split; [lia|]].
      * rewrite !list_lookup_insert_ne by lia. apply lookup_replicate_2. lia.
      * intros (d & Hd & _). lia.
Qed.

Lemma sieve_returns_sieved :
  exists t : list Z,
    sieve_of_eratosthenes limit = Ret t /\ sieved limit (Z.sqrt limit) t.
Proof.
  pose proof sqrt_limit_bounds as Hr.
  unfold sieve_of_eratosthenes. cbv zeta.
  rewrite setitem_in_range by (rewrite length_replicate; lia). cbn [bind].
  rewrite setitem_in_range by (rewrite length_insert, length_replicate; lia).
  cbn [bind]. unfold isqrt. destruct (Z.ltb_spec limit 0); [lia|]. cbn [bind].
  change (Z.to_nat 0) with 0%nat. change (Z.to_nat 1) with 1%nat.
  apply (sieve_loop_sieved limit (Z.sqrt limit) ltac:(lia)
           (Z.to_nat (Z.sqrt limit - 1)) 2); [lia|lia|].
  exact initial_table_sieved.
Qed.

Lemma struck_sqrt_iff (k : Z) :
  0 <= k <= limit ->
  struck (Z.sqrt limit) k <-> exists d : Z, 2 <= d /\ (d | k) /\ d * d <= k.
Proof.
  intros Hk. split.
  - intros (d & Hd & Hdiv & Hsq). exists d. repeat split; try assumption; lia.
  - intros (d & Hd & Hdiv & Hsq). exists d. split; [|split; assumption].
    split; [exact Hd|]. apply Z.sqrt_le_square; [lia|lia|]. lia.
Qed.

Lemma unstruck_iff_prime (k : Z) :
  0 <= k <= limit -> (2 <= k /\ ~ struck (Z.sqrt limit) k) <-> Z.prime k.
Proof.
  intros Hk. rewrite struck_sqrt_iff by exact Hk. split.
  - intros [H2 Hns]. split; [lia|]. intros n Hn [c Hc].
    assert (1 < c) by nia.
    destruct (Z_le_dec (n * n) k) as [Hsq|Hsq].
    + apply Hns. exists n. split; [lia|]. split; [exists c; exact Hc|exact Hsq].
    + apply Hns. exists c. split; [lia|]. split; [exists n; lia|nia].
  - intros [H1 Hp]. split; [lia|]. intros (d & Hd & Hdiv & Hsq).
    apply (Hp d); [nia|exact Hdiv].
Qed.

Lemma sieved_marks_primes (t : list Z) (k : Z) :
  sieved limit (Z.sqrt limit) t -> 0 <= k <= limit ->
  (t !! Z.to_nat k = Some 1 <-> Z.prime k) /\
  (t !! Z.to_nat k = Some 1 \/ t !! Z.to_nat k = Some 0).
Proof.
  intros [_ Ht] Hk. rewrite <- unstruck_iff_prime by exact Hk.
  destruct (Ht k Hk) as [(Hx & H2 & Hns)|(Hx & Hs)].
  - split; [tauto|left; exact Hx].
  - split; [|right; exact Hx]. rewrite Hx. split; [discriminate|].
    intros [H2 Hns]. destruct Hs; [lia|contradiction].
Qed.

Lemma sieved_getitem (t : list Z) (k : Z) :
  sieved limit (Z.sqrt limit) t -> 0 <= k <= limit ->
  (getitem t k = Ret 1 <-> Z.prime k) /\
  (getitem t k = Ret 1 \/ getitem t k = Ret 0).
Proof.
  intros Ht Hk. destruct (sieved_marks_primes t k Ht Hk) as [Hiff [H1|H0]].
  - rewrite (getitem_lookup t k 1) by (lia || exact H1). split; [|left; reflexivity].
    rewrite <- Hiff. split; intros _; [exact H1|reflexivity].
  - rewrite (getitem_lookup t k 0) by (lia || exact H0). split; [|right; reflexivity].
    rewrite <- Hiff. rewrite H0. split; discriminate.
Qed.

End SieveResult.

(** C5: for every limit >= 1 the sieve returns a table whose entry i, for
    0 <= i <= limit, is 1 exactly when i is prime (and 0 otherwise); for
    limit = 30 the indices marked 1 are 2, 3, 5, 7, 11, 13, 17, 19, 23, 29. *)
Theorem sieve_marks_exactly_primes (limit : Z) :
  1 <= limit ->
  (exists t : list Z,
     sieve_of_eratosthenes limit = Ret t /\
     forall i : Z, 0 <= i <= limit ->
       (getitem t i = Ret 1 <-> Z.prime i) /\
       (getitem t i = Ret 1 \/ getitem t i = Ret 0)) /\
  (exists t30 : list Z,
     sieve_of_eratosthenes 30 = Ret t30 /\
     primes_of t30 = [2; 3; 5; 7; 11; 13; 17; 19; 23; 29]).
Proof.
  intros Hl. split.
  - destruct (sieve_returns_sieved limit Hl) as (t & Ht & Hs).
    exists t. split; [exact Ht|]. intros i Hi. apply (sieved_getitem limit Hl); assumption.
  - eexists. split; vm_compute; reflexivity.
Qed.

Lemma sieve_marks_exactly_primes_witness :
  (exists t : list Z,
     sieve_of_eratosthenes 30 = Ret t /\
     forall i : Z, 0 <= i <= 30 ->
       (getitem t i = Ret 1 <-> Z.prime i) /\
       (getitem t i = Ret 1 \/ getitem t i = Ret 0)) /\
  (exists t30 : list Z,
     sieve_of_eratosthenes 30 = Ret t30 /\
     primes_of t30 = [2; 3; 5; 7; 11; 13; 17; 19; 23; 29]).
Proof. apply (sieve_marks_exactly_primes 30). lia. Defined.

(** C7, amended: for every limit >= 1 the sieve returns a table, of
    limit + 1 entries, with no index out of range on the way; for the one
    such limit below 2 no entry of the table is marked. *)
Theorem sieve_total_from_1 (limit : Z) :
  1 <= limit ->
  exists t : list Z,
    sieve_of_eratosthenes limit = Ret t /\
    Z.of_nat (length t) = limit + 1 /\
    (limit < 2 -> forall i : Z, marked t i = false).
Proof.
  intros Hl. destruct (sieve_returns_sieved limit Hl) as (t & Ht & Hlen & Hs).
  exists t. split; [exact Ht|]. split; [exact Hlen|].
  intros H2. assert (limit = 1) by lia. subst limit.
  vm_compute in Ht. injection Ht as <-. intros i. unfold marked.
  destruct (Z.to_nat i) as [|[|j]]; reflexivity.
Qed.

Lemma sieve_total_from_1_witness :
  exists t : list Z,
    sieve_of_eratosthenes 1 = Ret t /\
    Z.of_nat (length t) = 1 + 1 /\
    (1 < 2 -> forall i : Z, marked t i = false).
Proof. apply (sieve_total_from_1 1). lia. Defined.

(** C7 as stated fails at limit = 0: the table has one entry and the write
    to index 1 raises [IndexError]. *)
Lemma sieve_raises_at_0 :
  ~ (forall limit : Z, 0 <= limit ->
       exists t : list Z,
         sieve_of_eratosthenes limit = Ret t /\
         (limit < 2 -> forall i : Z, marked t i = false)).
Proof.
  intros H. destruct (H 0 ltac:(lia)) as (t & Ht & _).
  vm_compute in Ht. discriminate.
Qed.

Example sieve_of_eratosthenes_0 : sieve_of_eratosthenes 0 = Raise IndexError.
Proof. reflexivity. Qed.

Section Counting.

Lemma py_range_NoDup (a b : Z) : List.NoDup (py_range a b).
Proof.
  unfold py_range. apply Finite.Injective_map_NoDup.
  - intros x y H. lia.
  - apply List.seq_NoDup.
Qed.

Lemma py_range_split (a b c : Z) :
  a <= b <= c -> py_range a c = py_range a b ++ py_range b c.
Proof.
  intros H.
  assert (G : forall (j : nat) (x : Z), x <= b -> Z.of_nat j = b - x ->
              py_range x c = py_range x b ++ py_range b c).
  { induction j as [|j IH]; intros x Hx Hj.
    - replace x with b by lia. rewrite (py_range_nil b b) by lia. reflexivity.
    - rewrite (py_range_cons x c), (py_range_cons x b) by lia.
      cbn [app]. f_equal. apply IH; lia. }
  apply (G (Z.to_nat (b - a))); lia.
Qed.

(** The comprehension that builds [primes] keeps the marked indices, in
    increasing order. *)
Lemma enumerate_filter_from (t pre : list Z) :
  let a := Z.of_nat (length pre) in
  map fst (List.filter (fun ix => negb (snd ix =? 0))
             (zip (py_range a (a + Z.of_nat (length t))) t)) =
  List.filter (marked (pre ++ t)) (py_range a (a + Z.of_nat (length t))).
Proof.
  cbv zeta. revert pre. induction t as [|x t IH]; intros pre.
  - rewrite py_range_nil by (simpl; lia). reflexivity.
  - rewrite py_range_cons by (simpl length; lia).
    cbn [zip zip_with List.filter snd fst].
    assert (Hm : marked (pre ++ x :: t) (Z.of_nat (length pre)) = negb (x =? 0)).
    { unfold marked. rewrite Nat2Z.id.
      rewrite (list_lookup_middle pre t x (length pre) eq_refl). reflexivity. }
    rewrite Hm.
    specialize (IH (pre ++ [x])).
    rewrite <- app_assoc in IH. cbn [app] in IH.
    rewrite length_app in IH. cbn [length] in IH.
    replace (Z.of_nat (length pre + 1)) with (Z.of_nat (length pre) + 1) in IH by lia.
    replace (Z.of_nat (length pre) + 1 + Z.of_nat (length t))
      with (Z.of_nat (length pre) + Z.of_nat (length (x :: t))) in IH
      by (simpl length; lia).
    destruct (negb (x =? 0)); cbn [map fst]; rewrite IH; reflexivity.
Qed.

Lemma primes_of_filter (t : list Z) :
  primes_of t = List.filter (marked t) (py_range 0 (Z.of_nat (length t))).
Proof. exact (enumerate_filter_from t []). Qed.

(** Whatever follows a prime [p >= n] is never inspected. *)
Lemma count_loop_break (t : list Z) (n : Z) (inspected rest : list Z) (p count : Z) :
  n <= p ->
  count_loop t n (inspected ++ p :: rest) count = count_loop t n inspected count.
Proof.
  intros Hp. revert count.
  induction inspected as [|a inspected IH]; intros count; cbn [app count_loop].
  - rewrite Z.geb_leb. destruct (Z.leb_spec n p); [reflexivity|lia].
  - destruct (a >=? n); [reflexivity|].
    destruct ((1 <? a) && (1 <? n - a)); [|apply IH].
    destruct (getitem t (n - a)) as [x| |]; cbn [bind]; try reflexivity.
    destruct (negb (x =? 0)); apply IH.
Qed.

Lemma count_loop_below (t : list Z) (n : Z) (below above : list Z) :
  n <= Z.of_nat (length t) ->
  Forall (fun p => p < n) below -> Forall (fun p => n <= p) above ->
  forall count : Z,
    count_loop t n (below ++ above) count =
    Ret (count + Z.of_nat (length (List.filter (counted t n) below))).
Proof.
  intros Hn Hbelow Habove.
  induction Hbelow as [|a below Ha Hbelow IH]; intros count; cbn [app].
  - destruct Habove as [|p above Hp _]; cbn [count_loop List.filter length].
    + f_equal. lia.
    + rewrite Z.geb_leb. destruct (Z.leb_spec n p); [f_equal; lia|lia].
  - cbn [count_loop List.filter]. rewrite Z.geb_leb.
    destruct (Z.leb_spec n a); [lia|]. unfold counted at 1.
    destruct ((1 <? a) && (1 <? n - a)) eqn:Hguard; cbn [andb].
    + apply andb_prop in Hguard. destruct Hguard as [H1 H2].
      apply Z.ltb_lt in H1. apply Z.ltb_lt in H2.
      destruct (lookup_lt_is_Some_2 t (Z.to_nat (n - a)) ltac:(lia)) as [x Hx].
      rewrite (getitem_lookup t (n - a) x) by (lia || exact Hx). cbn [bind].
      unfold marked. rewrite Hx.
      destruct (negb (x =? 0)); rewrite IH; f_equal; cbn [length]; lia.
    + apply IH.
Qed.

End Counting.

Lemma marked_iff_prime (limit : Z) (t : list Z) (k : Z) :
  1 <= limit -> sieved limit (Z.sqrt limit) t -> 0 <= k <= limit ->
  marked t k = true <-> Z.prime k.
Proof.
  intros Hl Hs Hk.
  destruct (sieved_marks_primes limit Hl t k Hs Hk) as [Hiff [H1|H0]]; unfold marked.
  - rewrite H1. split; intros _; [apply Hiff; exact H1|reflexivity].
  - rewrite H0. split; [discriminate|]. intros Hp. apply Hiff in Hp. congruence.
Qed.

(** C6: for every even n with 4 <= n <= limit, the count the scan computes
    on the sieve up to limit is the number of primes p with 2 <= p < n whose
    complement n - p is prime too: the list of those p has no repetition, so
    p and n - p both count when they differ and n / 2 counts once; and the
    loop stops at the first element p >= n of the list it is given, whatever
    list that is: nothing after that element is inspected, from any count. *)
Theorem goldbach_count_ordered (limit n : Z) :
  4 <= n <= limit -> n mod 2 = 0 ->
  exists (t : list Z) (pairs : list Z),
    sieve_of_eratosthenes limit = Ret t /\
    List.NoDup pairs /\
    (forall p : Z, In p pairs <-> 2 <= p < n /\ Z.prime p /\ Z.prime (n - p)) /\
    goldbach_count limit n = Ret (Z.of_nat (length pairs)) /\
    (forall (inspected rest : list Z) (p count : Z),
       n <= p ->
       count_loop t n (inspected ++ p :: rest) count =
       count_loop t n inspected count).
Proof.
  intros Hn _.
  assert (Hl : 1 <= limit) by lia.
  destruct (sieve_returns_sieved limit Hl) as (t & Ht & Hs).
  pose proof Hs as [Hlen _].
  exists t, (List.filter (counted t n) (List.filter (marked t) (py_range 0 n))).
  split; [exact Ht|]. split; [|split; [|split]].
  - apply List.NoDup_filter, List.NoDup_filter, py_range_NoDup.
  - intros p. rewrite !List.filter_In, in_py_range. unfold counted.
    rewrite !andb_true_iff, !Z.ltb_lt. split.
    + intros ((Hp & Hm) & (H1 & H2) & Hc).
      apply (marked_iff_prime limit) in Hm; [|lia|exact Hs|lia].
      apply (marked_iff_prime limit) in Hc; [|lia|exact Hs|lia].
      split; [lia|split; assumption].
    + intros (Hp & Hpp & Hpc).
      pose proof (Z.prime_ge_2 _ Hpc) as Hc2.
      split; [split; [lia|]|split; [lia|]];
        apply (marked_iff_prime limit); try assumption; lia.
  - unfold goldbach_count. rewrite Ht. cbn [bind]. cbv zeta.
    rewrite primes_of_filter, Hlen.
    rewrite (py_range_split 0 n (limit + 1)) by lia.
    rewrite List.filter_app.
    rewrite count_loop_below; [reflexivity|lia| |].
    + apply List.Forall_forall. intros p Hp.
      apply List.filter_In in Hp. destruct Hp as [Hp _].
      apply in_py_range in Hp. lia.
    + apply List.Forall_forall. intros p Hp.
      apply List.filter_In in Hp. destruct Hp as [Hp _].
      apply in_py_range in Hp. lia.
  - intros inspected rest p count Hp. apply count_loop_break. exact Hp.
Qed.

Lemma goldbach_count_ordered_witness :
  exists (t : list Z) (pairs : list Z),
    sieve_of_eratosthenes 30 = Ret t /\
    List.NoDup pairs /\
    (forall p : Z, In p pairs <-> 2 <= p < 10 /\ Z.prime p /\ Z.prime (10 - p)) /\
    goldbach_count 30 10 = Ret (Z.of_nat (length pairs)) /\
    (forall (inspected rest : list Z) (p count : Z),
       10 <= p ->
       count_loop t 10 (inspected ++ p :: rest) count =
       count_loop t 10 inspected count).
Proof. apply (goldbach_count_ordered 30 10); [lia|reflexivity]. Defined.

(** The break is what stops the loop: on a list that is not increasing, a
    prime that would count is not reached once an element >= n came first. *)
Example count_loop_stops_at_10 :
  (let* t := sieve_of_eratosthenes 30 in count_loop t 10 [10; 3] 0) = Ret 0 /\
  (let* t := sieve_of_eratosthenes 30 in count_loop t 10 [3; 10] 0) = Ret 1.
Proof. split; vm_compute; reflexivity. Qed.

(** The scan's count at 10 on the sieve up to 30: 3 + 7, 5 + 5 and 7 + 3. *)
Example goldbach_count_10 : goldbach_count 30 10 = Ret 3.
Proof. vm_compute. reflexivity. Qed.

Section Floats.

(** Two floats that [==] tells apart, the second not a NaN, are different. *)
Lemma float_neq (x y : float) :
  PrimFloat.eqb x y = false -> PrimFloat.eqb y y = true -> x <> y.
Proof. intros Hxy Hyy E. subst y. congruence. Qed.

End Floats.

(** C3 fails on the code at n = 32 (n / 2 = 16): no odd prime divides 32,
    so [temp] is still 32 after the loop, the final test [temp > 2] holds
    and the result is 31 / 30, not 1.0. *)
Theorem wormhole_factor_32 (fuel : nat) :
  scan_wormhole fuel 32 32 = Ret (31 / 30)%float /\
  (31 / 30)%float <> 1%float /\
  singular_series_spec 32 = 1%float.
Proof.
  split; [vm_compute; reflexivity|]. split; [|vm_compute; reflexivity].
  apply float_neq; vm_compute; reflexivity.
Qed.

(** The same on the other powers of two the scan could meet below 32; only
    n = 2 gives 1.0. *)
Example wormhole_factor_powers_of_two (fuel : nat) :
  map (fun n => scan_wormhole fuel 32 n) [2; 4; 8; 16] =
  [Ret 1%float; Ret (3 / 2)%float; Ret (7 / 6)%float; Ret (15 / 14)%float].
Proof. vm_compute. reflexivity. Qed.

(** C4 fails on the code at n = 6 (n / 2 = 3): the only prime up to
    isqrt(6) = 2 is skipped, [temp] is still 6, and the result is
    (6 - 1) / (6 - 2) = 1.25 where the product over the odd primes dividing
    3 is (3 - 1) / (3 - 2) = 2.0. *)
Theorem wormhole_factor_6 (fuel : nat) :
  scan_wormhole fuel 6 6 = Ret (5 / 4)%float /\
  singular_series_spec 6 = 2%float /\
  (5 / 4)%float <> 2%float.
Proof.
  split; [vm_compute; reflexivity|]. split; [vm_compute; reflexivity|].
  apply float_neq; vm_compute; reflexivity.
Qed.

(** At n = 12 the factor of the odd prime 3 is applied once, and the
    power of two left in [temp] adds the factor 3 / 2 that no prime has. *)
Example wormhole_factor_12 :
  scan_wormhole 5 12 12 = Ret 3%float /\ singular_series_spec 12 = 2%float.
Proof. split; vm_compute; reflexivity. Qed.

(** Where [temp] ends at 2 the result is the product asked for. *)
Example wormhole_factor_18 :
  scan_wormhole 5 18 18 = Ret 2%float /\ singular_series_spec 18 = 2%float.
Proof. split; vm_compute; reflexivity. Qed.

Section ScanStart.

(** A longer sieve lists the same primes first, and larger primes after. *)
Lemma primes_of_prefix (l L : Z) (t T : list Z) :
  1 <= l <= L ->
  sieve_of_eratosthenes l = Ret t -> sieve_of_eratosthenes L = Ret T ->
  exists rest : list Z,
    primes_of T = primes_of t ++ rest /\
    Forall (fun p => l < p /\ Z.prime p) rest.
Proof.
  intros HlL Ht HT.
  destruct (sieve_returns_sieved l ltac:(lia)) as (t' & Ht' & Hs).
  destruct (sieve_returns_sieved L ltac:(lia)) as (T' & HT' & HS).
  assert (t' = t) by congruence. assert (T' = T) by congruence. subst t' T'.
  pose proof Hs as [Hlen _]. pose proof HS as [HLen _].
  rewrite !primes_of_filter, Hlen, HLen.
  rewrite (py_range_split 0 (l + 1) (L + 1)) by lia. rewrite List.filter_app.
  eexists. split; [f_equal|].
  - apply List.filter_ext_in. intros k Hk.
    apply in_py_range in Hk.
    pose proof (marked_iff_prime l t k ltac:(lia) Hs ltac:(lia)) as E1.
    pose proof (marked_iff_prime L T k ltac:(lia) HS ltac:(lia)) as E2.
    destruct (marked t k), (marked T k); try reflexivity.
    + exfalso. assert (false = true) by tauto. discriminate.
    + exfalso. assert (false = true) by tauto. discriminate.
  - apply List.Forall_forall. intros k Hk. apply List.filter_In in Hk.
    destruct Hk as [Hk Hm]. apply in_py_range in Hk. split; [lia|].
    apply (marked_iff_prime L T k); [lia|exact HS|lia|exact Hm].
Qed.

(** Primes that do not divide [temp] leave the pair as it is. *)
Lemma wormhole_loop_no_divisor (fuel : nat) (limit temp : Z) (primes : list Z) :
  Forall (fun p => 2 < p /\ temp mod p <> 0) primes ->
  forall factor : float,
    wormhole_loop fuel limit primes factor temp = Ret (factor, temp).
Proof.
  intros H factor. induction H as [|p primes [Hp Hmod] _ IH]; cbn [wormhole_loop].
  - reflexivity.
  - destruct (p >? limit); [reflexivity|].
    destruct (Z.ltb_spec 2 p); [|lia].
    unfold py_mod. destruct (Z.eqb_spec p 0); [lia|]. cbn [bind].
    destruct (Z.eqb_spec (temp mod p) 0); [contradiction|]. exact IH.
Qed.

Lemma odd_prime_not_divide_128 (p : Z) : 5 < p -> Z.prime p -> 128 mod p <> 0.
Proof.
  intros Hp Hprime E. apply Z.mod_divide in E; [|lia].
  change 128 with (2 ^ 7) in E.
  apply Z.divide_prime_pp in E; [lia|exact Hprime|exact Z.prime_2|lia].
Qed.

Lemma wormhole_factor_after_5 (k : nat) (rest : list Z) :
  Forall (fun p => 5 < p /\ Z.prime p) rest ->
  wormhole_factor (8 + k) 10000000 ([2; 3; 5] ++ rest) =
  Ret (4 / 3 * (127 / 126))%float.
Proof.
  intros Hrest. unfold wormhole_factor. cbv zeta.
  change (isqrt 10000000) with (@Ret Z 3162). cbn [bind].
  assert (E : wormhole_loop (8 + k) 3162 ([2; 3; 5] ++ rest) 1 10000000 =
              wormhole_loop (8 + k) 3162 rest (4 / 3)%float 128)
    by (vm_compute; reflexivity).
  rewrite E. rewrite wormhole_loop_no_divisor.
  - vm_compute. reflexivity.
  - apply (List.Forall_impl _ (P := fun p => 5 < p /\ Z.prime p)); [|exact Hrest].
    intros p [Hp Hprime]. split; [lia|]. apply odd_prime_not_divide_128; assumption.
Qed.

(** The first row of the scan, n = 10000000 = 2^7 5^7 on the sieve up to
    10002000: the odd prime 5 gives 4 / 3, and the 2^7 = 128 left in [temp]
    multiplies it by 127 / 126. *)
Lemma wormhole_factor_scan_start :
  exists T : list Z,
    sieve_of_eratosthenes 10002000 = Ret T /\
    forall fuel : nat, (8 <= fuel)%nat ->
      wormhole_factor fuel 10000000 (primes_of T) = Ret (4 / 3 * (127 / 126))%float.
Proof.
  destruct (sieve_returns_sieved 10002000 ltac:(lia)) as (T & HT & _).
  exists T. split; [exact HT|]. intros fuel Hfuel.
  destruct (primes_of_prefix 5 10002000 [0; 0; 1; 1; 0; 1] T ltac:(lia) eq_refl HT)
    as (rest & -> & Hrest).
  change (primes_of [0; 0; 1; 1; 0; 1]) with [2; 3; 5].
  replace fuel with (8 + (fuel - 8))%nat by lia.
  apply wormhole_factor_after_5. exact Hrest.
Qed.

End ScanStart.

(** ** Further properties of the discriminant *)

Section DiscriminantLaws.

Lemma fold_left_mul_prod {A : Type} (g : A -> Z) (l : list A) (d : Z) :
  fold_left (fun disc j => disc * g j) l d = d * list_prod (map g l).
Proof.
  revert d. induction l as [|j l IH]; intros d; cbn [fold_left map list_prod].
  - ring.
  - rewrite IH. ring.
Qed.

(** The inner loop for the index [i], as a product. *)
Let inner_prod (roots : list Z) (n i : Z) : Z :=
  list_prod
    (map (fun j => (nth (Z.to_nat i) roots 0 - nth (Z.to_nat j) roots 0) ^ 2)
         (py_range (i + 1) n)).

Lemma outer_loop_prod (roots rng : list Z) (n d : Z) :
  fold_left
    (fun disc i =>
       fold_left
         (fun disc j =>
            disc * (nth (Z.to_nat i) roots 0 - nth (Z.to_nat j) roots 0) ^ 2)
         (py_range (i + 1) n) disc)
    rng d =
  d * list_prod (map (inner_prod roots n) rng).
Proof.
  revert d. induction rng as [|i rng IH]; intros d; cbn [fold_left map list_prod].
  - ring.
  - rewrite IH.
    rewrite (fold_left_mul_prod
               (fun j => (nth (Z.to_nat i) roots 0 - nth (Z.to_nat j) roots 0) ^ 2)).
    unfold inner_prod. ring.
Qed.

Lemma compute_discriminant_prod (roots : list Z) :
  compute_discriminant roots =
  list_prod (map (inner_prod roots (Z.of_nat (length roots)))
                 (py_range 0 (Z.of_nat (length roots)))).
Proof.
  unfold compute_discriminant. cbv zeta. rewrite outer_loop_prod. ring.
Qed.

Lemma py_range_shift (a b : Z) :
  py_range (a + 1) (b + 1) = map (fun j => j + 1) (py_range a b).
Proof.
  unfold py_range. rewrite map_map.
  replace (b + 1 - (a + 1)) with (b - a) by lia.
  apply map_ext. intros k. lia.
Qed.

Lemma nth_shift (x : Z) (xs : list Z) (j : Z) :
  0 <= j -> nth (Z.to_nat (j + 1)) (x :: xs) 0 = nth (Z.to_nat j) xs 0.
Proof.
  intros Hj. replace (Z.to_nat (j + 1)) with (S (Z.to_nat j)) by lia. reflexivity.
Qed.

Lemma map_nth_range (l : list Z) :
  map (fun j => nth (Z.to_nat j) l 0) (py_range 0 (Z.of_nat (length l))) = l.
Proof.
  induction l as [|x l IH]; [reflexivity|].
  rewrite py_range_cons by (cbn [length]; lia). cbn [map]. f_equal.
  replace (Z.of_nat (length (x :: l))) with (Z.of_nat (length l) + 1)
    by (cbn [length]; lia).
  rewrite py_range_shift, map_map. rewrite <- IH at 2.
  apply map_ext_in. intros j Hj. apply in_py_range in Hj.
  apply nth_shift. lia.
Qed.

Lemma inner_prod_head (x : Z) (xs : list Z) :
  inner_prod (x :: xs) (Z.of_nat (length xs) + 1) 0 =
  list_prod (squared_differences x xs).
Proof.
  unfold inner_prod, squared_differences.
  rewrite py_range_shift, map_map. f_equal.
  rewrite <- (map_nth_range xs) at 2. rewrite map_map.
  apply map_ext_in. intros j Hj. apply in_py_range in Hj.
  rewrite nth_shift by lia. reflexivity.
Qed.

Lemma inner_prod_tail (x : Z) (xs : list Z) (n i : Z) :
  0 <= i -> inner_prod (x :: xs) (n + 1) (i + 1) = inner_prod xs n i.
Proof.
  intros Hi. unfold inner_prod.
  rewrite py_range_shift, map_map. f_equal.
  apply map_ext_in. intros j Hj. apply in_py_range in Hj.
  rewrite !nth_shift by lia. reflexivity.
Qed.

Lemma compute_discriminant_cons_eq (x : Z) (xs : list Z) :
  compute_discriminant (x :: xs) =
  list_prod (squared_differences x xs) * compute_discriminant xs.
Proof.
  rewrite !compute_discriminant_prod.
  replace (Z.of_nat (length (x :: xs))) with (Z.of_nat (length xs) + 1)
    by (cbn [length]; lia).
  rewrite py_range_cons by lia. cbn [map list_prod].
  rewrite inner_prod_head. f_equal.
  rewrite py_range_shift, map_map. f_equal.
  apply map_ext_in. intros i Hi. apply in_py_range in Hi.
  apply inner_prod_tail. lia.
Qed.

Lemma list_prod_nonzero (l : list Z) :
  list_prod l <> 0 <-> Forall (fun x => x <> 0) l.
Proof.
  induction l as [|x l IH]; cbn [list_prod].
  - split; [constructor|lia].
  - rewrite List.Forall_cons_iff, <- IH. nia.
Qed.

Lemma squared_differences_nonzero (x : Z) (xs : list Z) :
  list_prod (squared_differences x xs) <> 0 <-> ~ In x xs.
Proof.
  rewrite list_prod_nonzero. unfold squared_differences.
  rewrite List.Forall_map, List.Forall_forall. split.
  - intros H Hin. apply (H x Hin). replace (x - x) with 0 by lia. reflexivity.
  - intros H y Hy E. apply H. apply Z.pow_eq_0 in E; [|lia].
    replace x with y by lia. exact Hy.
Qed.

End DiscriminantLaws.

(** Adding a root in front multiplies the discriminant by the squared
    differences of the new root to the others. *)
Theorem compute_discriminant_cons (x : Z) (xs : list Z) :
  compute_discriminant (x :: xs) =
  list_prod (squared_differences x xs) * compute_discriminant xs.
Proof. apply compute_discriminant_cons_eq. Qed.

(** The discriminant is non-zero exactly when no root occurs twice. *)
Theorem compute_discriminant_nonzero_iff (roots : list Z) :
  compute_discriminant roots <> 0 <-> List.NoDup roots.
Proof.
  induction roots as [|x xs IH].
  - split; [constructor|]. intros _. vm_compute. discriminate.
  - rewrite compute_discriminant_cons_eq, List.NoDup_cons_iff, <- IH.
    rewrite <- squared_differences_nonzero. nia.
Qed.

Section DiscriminantSymmetry.

Lemma list_prod_permutation (l l' : list Z) :
  Permutation l l' -> list_prod l = list_prod l'.
Proof.
  induction 1 as [|x l l' _ IH|x y l|l l' l'' _ IH1 _ IH2]; cbn [list_prod].
  - reflexivity.
  - rewrite IH. reflexivity.
  - ring.
  - congruence.
Qed.

Lemma squared_differences_permutation (x : Z) (l l' : list Z) :
  Permutation l l' ->
  list_prod (squared_differences x l) = list_prod (squared_differences x l').
Proof.
  intros H. apply list_prod_permutation. unfold squared_differences.
  apply Permutation_map. exact H.
Qed.

Lemma list_prod_map_scale (c : Z) (f : Z -> Z) (l : list Z) :
  list_prod (map (fun y => c * f y) l) =
  c ^ Z.of_nat (length l) * list_prod (map f l).
Proof.
  induction l as [|y l IH]; cbn [map list_prod length].
  - reflexivity.
  - rewrite IH, Nat2Z.inj_succ, Z.pow_succ_r by lia. ring.
Qed.

End DiscriminantSymmetry.

(** Shifting every root by the same amount leaves the discriminant. *)
Theorem compute_discriminant_shift (c : Z) (roots : list Z) :
  compute_discriminant (map (fun x => x + c) roots) = compute_discriminant roots.
Proof.
  induction roots as [|x xs IH]; [reflexivity|].
  cbn [map]. rewrite !compute_discriminant_cons_eq, IH. f_equal.
  unfold squared_differences. rewrite map_map. f_equal.
  apply map_ext. intros y. f_equal. lia.
Qed.

(** The discriminant does not depend on the order of the roots. *)
Theorem compute_discriminant_permutation (roots roots' : list Z) :
  Permutation roots roots' ->
  compute_discriminant roots = compute_discriminant roots'.
Proof.
  induction 1 as [|x l l' Hl IH|x y l|l l' l'' _ IH1 _ IH2].
  - reflexivity.
  - rewrite !compute_discriminant_cons_eq, IH.
    rewrite (squared_differences_permutation x l l' Hl). reflexivity.
  - rewrite !compute_discriminant_cons_eq. unfold squared_differences.
    cbn [map list_prod]. replace ((y - x) ^ 2) with ((x - y) ^ 2) by ring. ring.
  - congruence.
Qed.

Lemma compute_discriminant_permutation_witness :
  compute_discriminant [0; 7; -7; 23; -23] = compute_discriminant [7; 0; -7; -23; 23].
Proof.
  apply compute_discriminant_permutation.
  apply (Permutation_trans (l' := [7; 0; -7; 23; -23])).
  - apply perm_swap.
  - apply perm_skip, perm_skip, perm_skip. apply perm_swap.
Defined.

(** Multiplying every one of the n roots by c multiplies the discriminant
    by c^(n (n - 1)); with c = -1 it is unchanged. *)
Theorem compute_discriminant_scale (c : Z) (roots : list Z) :
  let n := Z.of_nat (length roots) in
  compute_discriminant (map (fun x => c * x) roots) =
  c ^ (n * (n - 1)) * compute_discriminant roots.
Proof.
  cbv zeta. induction roots as [|x xs IH]; [reflexivity|].
  cbn [map]. rewrite !compute_discriminant_cons_eq, IH.
  unfold squared_differences. rewrite map_map.
  rewrite (map_ext (fun y => (c * x - c * y) ^ 2) (fun y => c ^ 2 * (x - y) ^ 2))
    by (intros y; ring).
  rewrite (list_prod_map_scale (c ^ 2) (fun y => (x - y) ^ 2)).
  rewrite <- Z.pow_mul_r by lia.
  replace (Z.of_nat (length (x :: xs)) * (Z.of_nat (length (x :: xs)) - 1))
    with (2 * Z.of_nat (length xs) + Z.of_nat (length xs) * (Z.of_nat (length xs) - 1))
    by (cbn [length]; lia).
  rewrite Z.pow_add_r by nia. ring.
Qed.

(** ** Further properties of the valuation *)

Section ValuationLaws.

Lemma ord_p_power_fuel (p : Z) (k : nat) (m : Z) (fuel : nat) :
  2 <= p -> m mod p <> 0 -> (k < fuel)%nat ->
  ord_p fuel (p ^ Z.of_nat k * m) p = Ret (Finite (Z.of_nat k)).
Proof.
  intros Hp Hm Hfuel. unfold ord_p.
  assert (Hnz : p ^ Z.of_nat k * m <> 0).
  { intros E. apply Z.mul_eq_0 in E. destruct E as [E|E].
    - apply Z.pow_eq_0_iff in E. lia.
    - subst m. rewrite Z.mod_0_l in Hm by lia. contradiction. }
  destruct (Z.eqb_spec (p ^ Z.of_nat k * m) 0); [contradiction|].
  rewrite ord_p_loop_pow by (assumption || lia). reflexivity.
Qed.

Lemma power_cofactor (p n v : Z) :
  2 <= p -> 0 <= v -> (p ^ v | n) -> ~ (p ^ (v + 1) | n) ->
  exists m : Z, n = p ^ v * m /\ m mod p <> 0.
Proof.
  intros Hp Hv [c Hc] Hnot. exists c. split; [lia|].
  intros E. apply Hnot. apply Z.mod_divide in E; [|lia].
  destruct E as [c' ->]. exists c'. rewrite Z.pow_add_r, Z.pow_1_r by lia. lia.
Qed.

Lemma power_not_divide (p m : Z) (k : nat) :
  2 <= p -> m mod p <> 0 -> ~ (p ^ (Z.of_nat k + 1) | p ^ Z.of_nat k * m).
Proof.
  intros Hp Hm [c Hc]. apply Hm.
  rewrite Z.pow_add_r, Z.pow_1_r in Hc by lia.
  assert (Hpk : p ^ Z.of_nat k <> 0) by (apply Z.pow_nonzero; lia).
  assert (E : m = c * p) by nia.
  rewrite E. apply Z.mod_mul. lia.
Qed.

Lemma ord_p_loop_opp_l (p : Z) (fuel : nat) :
  forall n v : Z, ord_p_loop fuel (- n) p v = ord_p_loop fuel n p v.
Proof.
  induction fuel as [|fuel IH]; intros n v; [reflexivity|].
  cbn [ord_p_loop]. unfold py_mod, py_floordiv.
  destruct (Z.eqb_spec p 0) as [|Hp]; [reflexivity|]. cbn [bind].
  destruct (Z.eqb_spec (n mod p) 0) as [E|E].
  - rewrite (Z.mod_opp_l_z n p Hp E). cbn [Z.eqb].
    rewrite (Z.div_opp_l_z n p Hp E). apply IH.
  - destruct (Z.eqb_spec (- n mod p) 0) as [E'|E']; [|reflexivity].
    exfalso. apply E. rewrite <- (Z.opp_involutive n).
    apply Z.mod_opp_l_z; assumption.
Qed.

Lemma ord_p_loop_opp_r (p : Z) (fuel : nat) :
  forall n v : Z, ord_p_loop fuel n (- p) v = ord_p_loop fuel n p v.
Proof.
  induction fuel as [|fuel IH]; intros n v; [reflexivity|].
  cbn [ord_p_loop]. unfold py_mod, py_floordiv.
  destruct (Z.eqb_spec p 0) as [->|Hp]; [reflexivity|].
  destruct (Z.eqb_spec (- p) 0) as [|_]; [lia|]. cbn [bind].
  destruct (Z.eqb_spec (n mod p) 0) as [E|E].
  - rewrite (Z.mod_opp_r_z n p Hp E). cbn [Z.eqb].
    rewrite (Z.div_opp_r_z n p Hp E). rewrite ord_p_loop_opp_l. apply IH.
  - destruct (Z.eqb_spec (n mod - p) 0) as [E'|E']; [|reflexivity].
    exfalso. apply E. rewrite <- (Z.opp_involutive p).
    apply Z.mod_opp_r_z; [lia|assumption].
Qed.

Lemma ord_p_loop_unit (p : Z) (fuel : nat) :
  p = 1 \/ p = -1 ->
  forall n v : Z, ord_p_loop fuel n p v = OutOfFuel.
Proof.
  intros Hp. induction fuel as [|fuel IH]; intros n v; [reflexivity|].
  cbn [ord_p_loop]. unfold py_mod, py_floordiv.
  destruct (Z.eqb_spec p 0); [lia|]. cbn [bind].
  assert (E : n mod p = 0).
  { destruct Hp as [-> | ->]; [apply Z.mod_1_r|].
    apply (Z.mod_opp_r_z n 1); [lia|apply Z.mod_1_r]. }
  rewrite E. cbn [Z.eqb]. apply IH.
Qed.

End ValuationLaws.

(** For p >= 2 and n <> 0, [ord_p] returns v exactly when p^v divides n and
    p^(v+1) does not: the exact multiplicity of p in n. *)
Theorem ord_p_multiplicity (n p v : Z) :
  n <> 0 -> 2 <= p ->
  returns (fun fuel => ord_p fuel n p) (Finite v) <->
  0 <= v /\ (p ^ v | n) /\ ~ (p ^ (v + 1) | n).
Proof.
  intros Hn Hp. split.
  - intros Hret.
    destruct (split_power p Hp n Hn) as (k & m & -> & Hm).
    pose proof (ord_p_of_power p Hp k m Hm) as Hk.
    pose proof (returns_inj _ _ _ Hret Hk) as E. injection E as ->.
    split; [lia|]. split; [exists m; ring|].
    apply power_not_divide; assumption.
  - intros (Hv & Hdiv & Hnot).
    destruct (power_cofactor p n v Hp Hv Hdiv Hnot) as (m & -> & Hm).
    rewrite <- (Z2Nat.id v Hv). apply ord_p_of_power; assumption.
Qed.

Lemma ord_p_multiplicity_witness :
  returns (fun fuel => ord_p fuel (-24) 2) (Finite 3) <->
  0 <= 3 /\ (2 ^ 3 | -24) /\ ~ (2 ^ (3 + 1) | -24).
Proof. apply (ord_p_multiplicity (-24) 2 3); lia. Defined.

(** Neither the sign of n nor the sign of p changes what [ord_p] does. *)
Theorem ord_p_signs (fuel : nat) (n p : Z) :
  ord_p fuel (- n) p = ord_p fuel n p /\ ord_p fuel n (- p) = ord_p fuel n p.
Proof.
  unfold ord_p. split.
  - destruct (Z.eqb_spec n 0) as [->|Hn]; [reflexivity|].
    destruct (Z.eqb_spec (- n) 0); [lia|]. rewrite ord_p_loop_opp_l. reflexivity.
  - rewrite ord_p_loop_opp_r. reflexivity.
Qed.

(** Outside its precondition, on a non-zero n: with p = 0 [ord_p] raises
    [ZeroDivisionError] at the first test of the loop, and with p = 1 or
    p = -1 the loop never ends. *)
Theorem ord_p_bad_prime (n : Z) :
  n <> 0 ->
  (forall fuel : nat, ord_p (S fuel) n 0 = Raise ZeroDivisionError) /\
  (forall fuel : nat, ord_p fuel n 1 = OutOfFuel) /\
  (forall fuel : nat, ord_p fuel n (-1) = OutOfFuel).
Proof.
  intros Hn. unfold ord_p. destruct (Z.eqb_spec n 0); [contradiction|].
  split; [reflexivity|].
  split; intros fuel; rewrite ord_p_loop_unit by lia; reflexivity.
Qed.

Lemma ord_p_bad_prime_witness :
  (forall fuel : nat, ord_p (S fuel) 5 0 = Raise ZeroDivisionError) /\
  (forall fuel : nat, ord_p fuel 5 1 = OutOfFuel) /\
  (forall fuel : nat, ord_p fuel 5 (-1) = OutOfFuel).
Proof. apply (ord_p_bad_prime 5). lia. Defined.

(** At a prime r the valuation of a product of two non-zero integers is the
    sum of their valuations. *)
Theorem ord_p_product (a b r : Z) :
  Z.prime r -> a <> 0 -> b <> 0 ->
  exists va vb : Z,
    returns (fun fuel => ord_p fuel a r) (Finite va) /\
    returns (fun fuel => ord_p fuel b r) (Finite vb) /\
    returns (fun fuel => ord_p fuel (a * b) r) (Finite (va + vb)).
Proof.
  intros Hr Ha Hb. pose proof (Z.prime_ge_2 r Hr) as Hr2.
  destruct (split_power r Hr2 a Ha) as (ka & ma & -> & Hma).
  destruct (split_power r Hr2 b Hb) as (kb & mb & -> & Hmb).
  exists (Z.of_nat ka), (Z.of_nat kb).
  split; [apply ord_p_of_power; assumption|].
  split; [apply ord_p_of_power; assumption|].
  replace (r ^ Z.of_nat ka * ma * (r ^ Z.of_nat kb * mb))
    with (r ^ Z.of_nat (ka + kb) * (ma * mb))
    by (rewrite Nat2Z.inj_add, Z.pow_add_r by lia; ring).
  rewrite <- Nat2Z.inj_add. apply ord_p_of_power; [exact Hr2|].
  apply (not_divide_mod r Hr). apply (not_divide_mul r Hr).
  - intros H. apply Hma. apply Z.mod_divide; [lia|exact H].
  - intros H. apply Hmb. apply Z.mod_divide; [lia|exact H].
Qed.

Lemma ord_p_product_witness :
  exists va vb : Z,
    returns (fun fuel => ord_p fuel 6 3) (Finite va) /\
    returns (fun fuel => ord_p fuel 45 3) (Finite vb) /\
    returns (fun fuel => ord_p fuel (6 * 45) 3) (Finite (va + vb)).
Proof. apply (ord_p_product 6 45 3); [exact Z.prime_3|lia|lia]. Defined.

(** ** Further properties of the scanner *)

(** [classify_orbit] by the residue of n modulo 6, for every integer n: the
    resonant label on residue 0, the middle label on residue 3 (so on odd n
    only), the generic label on the residues 1, 2, 4 and 5. *)
Theorem classify_orbit_residue (n : Z) :
  (classify_orbit n = "Resonant (mod 6)"%string <-> n mod 6 = 0) /\
  (classify_orbit n = "Stable (mod 3)"%string <-> n mod 6 = 3) /\
  (classify_orbit n = "Generic"%string <-> n mod 3 <> 0).
Proof.
  unfold classify_orbit.
  destruct (Z.eqb_spec (n mod 6) 0) as [H6|H6];
    [|destruct (Z.eqb_spec (n mod 3) 0) as [H3|H3]].
  - split; [tauto|]. split.
    + split; [discriminate|lia].
    + split; [discriminate|]. intros H. exfalso. apply H.
      revert H6. Z.div_mod_to_equations. lia.
  - split; [split; [discriminate|contradiction]|]. split.
    + split; [|reflexivity]. intros _. revert H6 H3. Z.div_mod_to_equations. lia.
    + split; [discriminate|contradiction].
  - split; [split; [discriminate|contradiction]|]. split.
    + split; [discriminate|]. intros H. exfalso. apply H3.
      revert H. Z.div_mod_to_equations. lia.
    + tauto.
Qed.

(** ** The harness *)

Section Harness.

Lemma check_3_2_true (case : Z * Z) : check_3_2 true case = true.
Proof.
  unfold check_3_2. cbv zeta.
  pose proof (frey_discriminant_closed_form (fst case) (snd case)) as E.
  unfold frey_roots, formula in E. cbv zeta in E. rewrite E.
  rewrite Z.eqb_refl. reflexivity.
Qed.

End Harness.

(** Whatever pairs (N, p) its table holds, [verify_theorem_3_2] ends with
    [all_pass] true: no case can report a mismatch. *)
Theorem verify_theorem_3_2_always (cases : list (Z * Z)) :
  verify_theorem_3_2_on cases = true.
Proof.
  unfold verify_theorem_3_2_on.
  induction cases as [|case cases IH]; [reflexivity|].
  cbn [fold_left]. rewrite check_3_2_true. exact IH.
Qed.

Section Theorem51.

Lemma hypothesis_violated_spec (N p q r : Z) :
  r <> 0 ->
  exists b : bool,
    hypothesis_violated N p q r = Ret b /\
    b = negb (negb (p mod r =? 0) && negb (q mod r =? 0)
              && negb ((N - p) mod r =? 0)).
Proof.
  intros Hr. unfold hypothesis_violated, py_mod.
  destruct (Z.eqb_spec r 0); [contradiction|]. cbn [bind].
  destruct (p mod r =? 0); [exists true; split; reflexivity|]. cbn [bind].
  destruct (q mod r =? 0); [exists true; split; reflexivity|]. cbn [bind].
  eexists. split; [reflexivity|]. cbn [negb andb].
  destruct ((N - p) mod r =? 0); reflexivity.
Qed.

Lemma mod_nonzero_not_divide (a r : Z) : r <> 0 -> (a mod r =? 0) = false -> ~ (r | a).
Proof.
  intros Hr E H. apply Z.eqb_neq in E. apply E. apply Z.mod_divide; assumption.
Qed.

(** The closed form as a power of an odd prime times a cofactor. *)
Lemma formula_power_cofactor (r N p : Z) (k : nat) (m : Z) :
  Z.prime r -> 2 < r -> ~ (r | p) -> ~ (r | 2 * N - p) -> ~ (r | N - p) ->
  N = r ^ Z.of_nat k * m -> m mod r <> 0 ->
  exists c : Z, formula N p = r ^ Z.of_nat (4 * k) * c /\ c mod r <> 0.
Proof.
  intros Hprime Hr Hp Hq Hd HN Hm.
  assert (H2 : ~ (r | 2)).
  { intros H. apply Z.divide_pos_le in H; lia. }
  assert (Hmd : ~ (r | m)).
  { intros H. apply Hm. apply Z.mod_divide; [lia|exact H]. }
  exists (2 ^ Z.of_nat 12 * p ^ Z.of_nat 6 * (2 * N - p) ^ Z.of_nat 6
          * (N - p) ^ Z.of_nat 4 * m ^ Z.of_nat 4).
  split.
  - unfold formula. cbv zeta. rewrite HN at 3.
    rewrite Z.pow_mul_l, <- Z.pow_mul_r by lia.
    replace (Z.of_nat k * 4) with (Z.of_nat (4 * k)) by lia.
    change (Z.of_nat 12) with 12. change (Z.of_nat 6) with 6.
    change (Z.of_nat 4) with 4. ring.
  - apply (not_divide_mod r Hprime).
    apply (not_divide_mul r Hprime);
      [apply (not_divide_mul r Hprime);
         [apply (not_divide_mul r Hprime); [apply (not_divide_mul r Hprime)|]|]|];
      apply (not_divide_pow r Hprime); assumption.
Qed.

(** Both valuations of a case inside the hypotheses, with the fuel they need. *)
Lemma valuations_with_fuel (N p r : Z) :
  1 <= N -> Z.prime r -> 2 < r ->
  ~ (r | p) -> ~ (r | 2 * N - p) -> ~ (r | N - p) ->
  exists k : nat,
    (forall fuel : nat, (k < fuel)%nat -> ord_p fuel N r = Ret (Finite (Z.of_nat k))) /\
    (forall fuel : nat, (4 * k < fuel)%nat ->
       ord_p fuel (compute_discriminant (frey_roots N p)) r =
       Ret (Finite (4 * Z.of_nat k))).
Proof.
  intros HN Hprime Hr Hp Hq Hd.
  assert (Hr2 : 2 <= r) by lia.
  destruct (split_power r Hr2 N ltac:(lia)) as (k & m & HNk & Hm).
  destruct (formula_power_cofactor r N p k m Hprime Hr Hp Hq Hd HNk Hm)
    as (c & Hc & Hcr).
  exists k. split.
  - intros fuel Hfuel. rewrite HNk. apply ord_p_power_fuel; assumption.
  - intros fuel Hfuel. rewrite frey_discriminant_closed_form, Hc.
    replace (4 * Z.of_nat k) with (Z.of_nat (4 * k)) by lia.
    apply ord_p_power_fuel; assumption.
Qed.

Lemma check_5_1_keeps (case : Z * Z * Z * Z) :
  odd_prime_case case ->
  exists k0 : nat, forall (fuel : nat) (all_pass : bool),
    (k0 <= fuel)%nat -> check_5_1 fuel all_pass case = Ret all_pass.
Proof.
  destruct case as [[[N p] r] e]. unfold odd_prime_case. cbn [fst snd].
  intros (HN & Hp & Hprime & Hr). unfold check_5_1. cbn [fst snd]. cbv zeta.
  destruct (hypothesis_violated_spec N p (2 * N - p) r ltac:(lia)) as (b & -> & Hb).
  cbn [bind]. destruct b.
  - exists O. reflexivity.
  - symmetry in Hb. apply negb_false_iff in Hb.
    apply andb_prop in Hb. destruct Hb as [Hb H3].
    apply andb_prop in Hb. destruct Hb as [H1 H2].
    apply negb_true_iff in H1, H2, H3.
    apply mod_nonzero_not_divide in H1, H2, H3; try lia.
    destruct (valuations_with_fuel N p r HN Hprime Hr H1 H2 H3) as (k & HvN & Hvd).
    exists (S (4 * k)). intros fuel all_pass Hfuel.
    change [0; p; - p; 2 * N - p; - (2 * N - p)] with (frey_roots N p).
    rewrite Hvd, HvN by lia. cbn [bind times_4 valuation_eqb].
    rewrite Z.eqb_refl. reflexivity.
Qed.

Lemma for_each_check_5_1_keeps (cases : list (Z * Z * Z * Z)) :
  Forall odd_prime_case cases ->
  exists k0 : nat, forall (fuel : nat) (all_pass : bool),
    (k0 <= fuel)%nat -> for_each (check_5_1 fuel) cases all_pass = Ret all_pass.
Proof.
  induction 1 as [|case cases Hcase _ (k1 & IH)].
  - exists O. reflexivity.
  - destruct (check_5_1_keeps case Hcase) as (k0 & Hk0).
    exists (Nat.max k0 k1). intros fuel all_pass Hfuel. cbn [for_each].
    rewrite Hk0 by lia. cbn [bind]. apply IH. lia.
Qed.

End Theorem51.

(** On every table whose cases have an odd prime r, N >= 1 and 0 < p < 2N,
    [verify_theorem_5_1] returns True: a case is skipped or its two
    valuations match.  The table in the source is such a table. *)
Theorem verify_theorem_5_1_passes (cases : list (Z * Z * Z * Z)) :
  Forall odd_prime_case cases ->
  returns (fun fuel => verify_theorem_5_1_on fuel cases) true.
Proof.
  intros H. destruct (for_each_check_5_1_keeps cases H) as (k0 & Hk0).
  exists k0. intros fuel Hfuel. apply Hk0. exact Hfuel.
Qed.

Lemma prime_5 : Z.prime 5.
Proof.
  split; [lia|]. intros n Hn [x Hx].
  assert (n = 2 \/ n = 3 \/ n = 4) as Hc by lia.
  destruct Hc as [->|[->| ->]]; lia.
Qed.

Lemma verify_theorem_5_1_passes_witness :
  returns (fun fuel => verify_theorem_5_1_on fuel test_cases_5_1) true.
Proof.
  apply verify_theorem_5_1_passes. unfold test_cases_5_1, odd_prime_case.
  repeat (apply List.Forall_cons;
    [cbn [fst snd];
     split; [lia|split; [lia|split;
       [first [exact Z.prime_3|exact prime_5|exact prime_7]|lia]]]|]).
  apply List.Forall_nil.
Defined.

Section Theorem51AtTwo.

Lemma for_each_app {A S : Type} (body : S -> A -> outcome S) (xs ys : list A) (s : S) :
  for_each body (xs ++ ys) s = let* s' := for_each body xs s in for_each body ys s'.
Proof.
  revert s. induction xs as [|x xs IH]; intros s; cbn [app for_each bind].
  - reflexivity.
  - destruct (body s x) as [s'| |]; cbn [bind]; [apply IH|reflexivity|reflexivity].
Qed.

Lemma odd_not_divide (a : Z) : a mod 2 = 1 -> ~ (2 | a).
Proof. intros Ha H. apply Z.mod_divide in H; lia. Qed.

(** The closed form at the prime 2, for odd p and even N = 2^k m. *)
Lemma formula_power_of_2 (N p : Z) (k : nat) (m : Z) :
  p mod 2 = 1 -> N mod 2 = 0 -> N = 2 ^ Z.of_nat k * m -> m mod 2 <> 0 ->
  exists c : Z, formula N p = 2 ^ Z.of_nat (12 + 4 * k) * c /\ c mod 2 <> 0.
Proof.
  intros Hp HN HNk Hm.
  assert (Hq : (2 * N - p) mod 2 = 1) by (revert Hp; Z.div_mod_to_equations; lia).
  assert (Hd : (N - p) mod 2 = 1) by (revert Hp HN; Z.div_mod_to_equations; lia).
  apply odd_not_divide in Hp, Hq, Hd.
  assert (Hmd : ~ (2 | m)).
  { intros H. apply Hm. apply Z.mod_divide; [lia|exact H]. }
  exists (p ^ Z.of_nat 6 * (2 * N - p) ^ Z.of_nat 6
          * (N - p) ^ Z.of_nat 4 * m ^ Z.of_nat 4).
  split.
  - unfold formula. cbv zeta. rewrite HNk at 3.
    rewrite Z.pow_mul_l, <- Z.pow_mul_r by lia.
    replace (Z.of_nat (12 + 4 * k)) with (12 + Z.of_nat k * 4) by lia.
    rewrite Z.pow_add_r by lia.
    change (Z.of_nat 6) with 6. change (Z.of_nat 4) with 4. ring.
  - apply (not_divide_mod 2 Z.prime_2).
    apply (not_divide_mul 2 Z.prime_2);
      [apply (not_divide_mul 2 Z.prime_2);
         [apply (not_divide_mul 2 Z.prime_2)|]|];
      apply (not_divide_pow 2 Z.prime_2); assumption.
Qed.

Lemma check_5_1_at_2 (N p e : Z) :
  1 <= N -> p mod 2 = 1 -> N mod 2 = 0 ->
  exists k0 : nat, forall (fuel : nat) (all_pass : bool),
    (k0 <= fuel)%nat -> check_5_1 fuel all_pass (N, p, 2, e) = Ret false.
Proof.
  intros HN Hp HN2.
  destruct (split_power 2 ltac:(lia) N ltac:(lia)) as (k & m & HNk & Hm).
  destruct (formula_power_of_2 N p k m Hp HN2 HNk Hm) as (c & Hc & Hc2).
  exists (S (12 + 4 * k)). intros fuel all_pass Hfuel.
  unfold check_5_1. cbn [fst snd]. cbv zeta.
  unfold hypothesis_violated, py_mod. cbn [Z.eqb bind].
  rewrite Hp. cbn [Z.eqb bind].
  replace ((2 * N - p) mod 2) with 1 by (revert Hp; Z.div_mod_to_equations; lia).
  cbn [Z.eqb bind].
  replace ((N - p) mod 2) with 1 by (revert Hp HN2; Z.div_mod_to_equations; lia).
  cbn [Z.eqb bind].
  change [0; p; - p; 2 * N - p; - (2 * N - p)] with (frey_roots N p).
  rewrite frey_discriminant_closed_form, Hc.
  rewrite ord_p_power_fuel by (assumption || lia). cbn [bind].
  rewrite HNk at 1. rewrite ord_p_power_fuel by (assumption || lia).
  cbn [bind times_4 valuation_eqb].
  destruct (Z.eqb_spec (Z.of_nat (12 + 4 * k)) (4 * Z.of_nat k)); [lia|reflexivity].
Qed.

End Theorem51AtTwo.

(** A case with r = 2, N even and p odd passes the hypothesis check of
    [verify_theorem_5_1] and fails the comparison (the discriminant has 12
    more factors 2 than 4 ord_2(N)), so a table that holds one, among cases
    with odd primes, makes the function return False. *)
Theorem verify_theorem_5_1_fails_at_2 (before after : list (Z * Z * Z * Z)) (N p e : Z) :
  Forall odd_prime_case before -> Forall odd_prime_case after ->
  1 <= N -> p mod 2 = 1 -> N mod 2 = 0 ->
  returns (fun fuel => verify_theorem_5_1_on fuel (before ++ (N, p, 2, e) :: after))
          false.
Proof.
  intros Hb Ha HN Hp HN2.
  destruct (for_each_check_5_1_keeps before Hb) as (k1 & Hk1).
  destruct (for_each_check_5_1_keeps after Ha) as (k3 & Hk3).
  destruct (check_5_1_at_2 N p e HN Hp HN2) as (k2 & Hk2).
  exists (Nat.max k1 (Nat.max k2 k3)). intros fuel Hfuel.
  unfold verify_theorem_5_1_on. rewrite for_each_app.
  rewrite Hk1 by lia. cbn [bind for_each]. rewrite Hk2 by lia. cbn [bind].
  apply Hk3. lia.
Qed.

Lemma verify_theorem_5_1_fails_at_2_witness :
  returns (fun fuel => verify_theorem_5_1_on fuel ([] ++ (2, 1, 2, 1) :: [])) false.
Proof.
  apply (verify_theorem_5_1_fails_at_2 [] [] 2 1 1);
    [apply List.Forall_nil|apply List.Forall_nil|lia|reflexivity|reflexivity].
Defined.

Section Uniformity.

Variables (N r : Z) (k : nat) (m : Z).
Hypothesis N_ge_1 : 1 <= N.
Hypothesis r_prime : Z.prime r.
Hypothesis r_odd : 2 < r.
Hypothesis N_split : N = r ^ Z.of_nat k * m.
Hypothesis m_unit : m mod r <> 0.

Lemma conduit_step_spec (fuel : nat) (results : list (Z * valuation)) (p : Z) :
  (4 * k < fuel)%nat ->
  conduit_step fuel N r results p =
  Ret (results ++ if recorded N r p then [(p, Finite (4 * Z.of_nat k))] else []).
Proof.
  intros Hfuel. unfold conduit_step, recorded. cbv zeta.
  destruct ((p <=? 1) || (2 * N - p <=? 1)).
  { cbn [negb andb]. rewrite app_nil_r. reflexivity. }
  destruct (hypothesis_violated_spec N p (2 * N - p) r ltac:(lia)) as (b & -> & Hb).
  cbn [bind negb andb].
  destruct (negb (p mod r =? 0) && negb ((2 * N - p) mod r =? 0)
            && negb ((N - p) mod r =? 0)) eqn:Hrec;
    cbn [negb] in Hb; subst b.
  - apply andb_prop in Hrec. destruct Hrec as [Hrec H3].
    apply andb_prop in Hrec. destruct Hrec as [H1 H2].
    apply negb_true_iff in H1, H2, H3.
    apply mod_nonzero_not_divide in H1, H2, H3; try lia.
    destruct (formula_power_cofactor r N p k m r_prime r_odd H1 H2 H3 N_split m_unit)
      as (c & Hc & Hcr).
    change [0; p; - p; 2 * N - p; - (2 * N - p)] with (frey_roots N p).
    rewrite frey_discriminant_closed_form, Hc.
    rewrite ord_p_power_fuel by (assumption || lia). cbn [bind].
    replace (Z.of_nat (4 * k)) with (4 * Z.of_nat k) by lia. reflexivity.
  - rewrite app_nil_r. reflexivity.
Qed.

Lemma conduit_loop_spec (fuel : nat) (ps : list Z) :
  (4 * k < fuel)%nat ->
  forall results : list (Z * valuation),
    for_each (conduit_step fuel N r) ps results =
    Ret (results ++ map (fun p => (p, Finite (4 * Z.of_nat k)))
                        (List.filter (recorded N r) ps)).
Proof.
  intros Hfuel. induction ps as [|p ps IH]; intros results;
    cbn [for_each List.filter map].
  - rewrite app_nil_r. reflexivity.
  - rewrite conduit_step_spec by exact Hfuel. cbn [bind]. rewrite IH.
    destruct (recorded N r p); cbn [map]; rewrite <- app_assoc; reflexivity.
Qed.

End Uniformity.

Section OneValue.

Lemma nodup_constant {A : Type} (v : valuation) (l : list A) :
  nodup valuation_eq_dec (map (fun _ => v) l) =
  match l with
  | [] => []
  | _ :: _ => [v]
  end.
Proof.
  induction l as [|x l IH]; [reflexivity|]. cbn [map nodup].
  destruct (in_dec valuation_eq_dec v (map (fun _ => v) l)) as [Hin|Hout].
  - rewrite IH. destruct l; [destruct Hin|reflexivity].
  - destruct l as [|y l]; [reflexivity|]. exfalso. apply Hout. left. reflexivity.
Qed.

Lemma one_value_iff_exists {A : Type} (f : A -> bool) (v : valuation) (l : list A) :
  (length (match List.filter f l with
           | [] => []
           | _ :: _ => [v]
           end) =? 1)%nat = existsb f l.
Proof.
  induction l as [|x l IH]; [reflexivity|]. cbn [List.filter existsb].
  destruct (f x); [reflexivity|exact IH].
Qed.

End OneValue.

(** For every N >= 1 and every odd prime r, the loop of
    [verify_conduit_uniformity] records exactly the odd p from 3 with
    p > 1, 2N - p > 1 and r dividing none of p, 2N - p, N - p, each with
    the same valuation 4 ord_r(N); the function returns True when at least
    one p is recorded and False when none is. *)
Theorem conduit_uniformity_spec (N r : Z) :
  1 <= N -> Z.prime r -> 2 < r ->
  exists v : Z,
    returns (fun fuel => ord_p fuel N r) (Finite v) /\
    returns (fun fuel =>
               for_each (conduit_step fuel N r) (py_range_step 3 (2 * N) 2) [])
            (map (fun p => (p, Finite (4 * v)))
                 (List.filter (recorded N r) (py_range_step 3 (2 * N) 2))) /\
    returns (fun fuel => conduit_uniformity fuel N r)
            (existsb (recorded N r) (py_range_step 3 (2 * N) 2)).
Proof.
  intros HN Hprime Hr.
  destruct (split_power r ltac:(lia) N ltac:(lia)) as (k & m & HNk & Hm).
  exists (Z.of_nat k). split; [|split].
  - rewrite HNk. apply ord_p_of_power; [lia|exact Hm].
  - exists (S (4 * k)). intros fuel Hfuel.
    rewrite (conduit_loop_spec N r k m) by (assumption || lia). reflexivity.
  - exists (S (4 * k)). intros fuel Hfuel. unfold conduit_uniformity.
    rewrite HNk at 1. rewrite ord_p_power_fuel by (assumption || lia). cbn [bind].
    rewrite (conduit_loop_spec N r k m) by (assumption || lia). cbn [bind app].
    cbv zeta. rewrite map_map. cbn [snd].
    rewrite nodup_constant. f_equal.
    rewrite <- (one_value_iff_exists (recorded N r) (Finite (4 * Z.of_nat k))).
    destruct (List.filter (recorded N r) (py_range_step 3 (2 * N) 2)); reflexivity.
Qed.

Lemma conduit_uniformity_spec_witness :
  exists v : Z,
    returns (fun fuel => ord_p fuel 15 5) (Finite v) /\
    returns (fun fuel =>
               for_each (conduit_step fuel 15 5) (py_range_step 3 (2 * 15) 2) [])
            (map (fun p => (p, Finite (4 * v)))
                 (List.filter (recorded 15 5) (py_range_step 3 (2 * 15) 2))) /\
    returns (fun fuel => conduit_uniformity fuel 15 5)
            (existsb (recorded 15 5) (py_range_step 3 (2 * 15) 2)).
Proof. apply (conduit_uniformity_spec 15 5); [lia|exact prime_5|lia]. Defined.

(** [verify_conduit_uniformity()] returns True. *)
Example verify_conduit_uniformity_true :
  returns verify_conduit_uniformity true.
Proof.
  exists 5%nat. intros fuel Hfuel.
  do 5 (destruct fuel as [|fuel]; [lia|]). vm_compute. reflexivity.
Qed.

(** ** Further properties of the sieve and of the count *)



Section PrimeList.

Lemma filter_range_sorted (f : Z -> bool) (b : Z) :
  forall (j : nat) (a : Z), Z.of_nat j = Z.max 0 (b - a) ->
    StronglySorted Z.lt (List.filter f (py_range a b)).
Proof.
  induction j as [|j IH]; intros a Hj.
  - rewrite py_range_nil by lia. constructor.
  - rewrite py_range_cons by lia. cbn [List.filter].
    assert (Hrest : StronglySorted Z.lt (List.filter f (py_range (a + 1) b)))
      by (apply IH; lia).
    destruct (f a); [|exact Hrest].
    constructor; [exact Hrest|].
    apply List.Forall_forall. intros x Hx. apply List.filter_In in Hx.
    destruct Hx as [Hx _]. apply in_py_range in Hx. lia.
Qed.

Lemma primes_of_sorted (t : list Z) : StronglySorted Z.lt (primes_of t).
Proof.
  rewrite primes_of_filter.
  apply (filter_range_sorted (marked t) (Z.of_nat (length t))
           (length t) 0). lia.
Qed.

Lemma in_primes_of (limit : Z) (t : list Z) (p : Z) :
  1 <= limit -> sieved limit (Z.sqrt limit) t ->
  In p (primes_of t) <-> Z.prime p /\ p <= limit.
Proof.
  intros Hl Hs. pose proof Hs as [Hlen _].
  rewrite primes_of_filter, List.filter_In, in_py_range, Hlen. split.
  - intros [Hp Hm]. split; [|lia].
    apply (marked_iff_prime limit t p Hl Hs); [lia|exact Hm].
  - intros [Hp Hle]. pose proof (Z.prime_ge_2 p Hp).
    split; [lia|]. apply (marked_iff_prime limit t p Hl Hs); [lia|exact Hp].
Qed.

End PrimeList.

(** The list [primes] the scan builds from the table is strictly increasing
    and holds exactly the primes up to limit. *)
Theorem primes_list_exact (limit : Z) :
  1 <= limit ->
  exists t : list Z,
    sieve_of_eratosthenes limit = Ret t /\
    StronglySorted Z.lt (primes_of t) /\
    forall p : Z, In p (primes_of t) <-> Z.prime p /\ p <= limit.
Proof.
  intros Hl. destruct (sieve_returns_sieved limit Hl) as (t & Ht & Hs).
  exists t. split; [exact Ht|]. split; [apply primes_of_sorted|].
  intros p. apply in_primes_of; assumption.
Qed.

Lemma primes_list_exact_witness :
  exists t : list Z,
    sieve_of_eratosthenes 30 = Ret t /\
    StronglySorted Z.lt (primes_of t) /\
    forall p : Z, In p (primes_of t) <-> Z.prime p /\ p <= 30.
Proof. apply (primes_list_exact 30). lia. Defined.

(** A sieve up to a larger limit lists the same primes first, followed by
    primes above the smaller limit only. *)
Theorem primes_list_extends (l L : Z) :
  1 <= l <= L ->
  exists (t T rest : list Z),
    sieve_of_eratosthenes l = Ret t /\
    sieve_of_eratosthenes L = Ret T /\
    primes_of T = primes_of t ++ rest /\
    Forall (fun p => l < p /\ Z.prime p) rest.
Proof.
  intros HlL.
  destruct (sieve_returns_sieved l ltac:(lia)) as (t & Ht & _).
  destruct (sieve_returns_sieved L ltac:(lia)) as (T & HT & _).
  destruct (primes_of_prefix l L t T HlL Ht HT) as (rest & Hsplit & Hrest).
  exists t, T, rest. repeat split; assumption.
Qed.

Lemma primes_list_extends_witness :
  exists (t T rest : list Z),
    sieve_of_eratosthenes 10 = Ret t /\
    sieve_of_eratosthenes 10002000 = Ret T /\
    primes_of T = primes_of t ++ rest /\
    Forall (fun p => 10 < p /\ Z.prime p) rest.
Proof. apply (primes_list_extends 10 10002000). lia. Defined.

Section CountEdges.

(** The counting loop reads [is_prime[n - p]] only for [p >= 2], so it stays
    inside a table of [n - 1] entries or more. *)
Lemma count_loop_within (t : list Z) (n : Z) (below above : list Z) :
  n <= Z.of_nat (length t) + 1 ->
  Forall (fun p => p < n) below -> Forall (fun p => n <= p) above ->
  forall count : Z,
    count_loop t n (below ++ above) count =
    Ret (count + Z.of_nat (length (List.filter (counted t n) below))).
Proof.
  intros Hn Hbelow Habove.
  induction Hbelow as [|a below Ha Hbelow IH]; intros count; cbn [app].
  - destruct Habove as [|p above Hp _]; cbn [count_loop List.filter length].
    + f_equal. lia.
    + rewrite Z.geb_leb. destruct (Z.leb_spec n p); [f_equal; lia|lia].
  - cbn [count_loop List.filter]. rewrite Z.geb_leb.
    destruct (Z.leb_spec n a); [lia|]. unfold counted at 1.
    destruct ((1 <? a) && (1 <? n - a)) eqn:Hguard; cbn [andb].
    + apply andb_prop in Hguard. destruct Hguard as [H1 H2].
      apply Z.ltb_lt in H1. apply Z.ltb_lt in H2.
      destruct (lookup_lt_is_Some_2 t (Z.to_nat (n - a)) ltac:(lia)) as [x Hx].
      rewrite (getitem_lookup t (n - a) x) by (lia || exact Hx). cbn [bind].
      unfold marked. rewrite Hx.
      destruct (negb (x =? 0)); rewrite IH; f_equal; cbn [length]; lia.
    + apply IH.
Qed.

Lemma filter_counted_above (t : list Z) (n : Z) (above : list Z) :
  Forall (fun p => n <= p) above -> List.filter (counted t n) above = [].
Proof.
  induction 1 as [|p above Hp _ IH]; [reflexivity|]. cbn [List.filter].
  unfold counted at 1. destruct (Z.ltb_spec 1 (n - p)); [lia|].
  rewrite andb_false_r. cbn [andb]. exact IH.
Qed.

Lemma goldbach_pairs_counted (limit n : Z) (t : list Z) :
  1 <= limit -> n <= limit + 2 -> sieved limit (Z.sqrt limit) t ->
  List.NoDup (List.filter (counted t n) (primes_of t)) /\
  (forall p : Z,
     In p (List.filter (counted t n) (primes_of t)) <-> goldbach_pair n p) /\
  count_loop t n (primes_of t) 0 =
  Ret (Z.of_nat (length (List.filter (counted t n) (primes_of t)))).
Proof.
  intros Hl Hn Hs. pose proof Hs as [Hlen _].
  split; [|split].
  - apply List.NoDup_filter. rewrite primes_of_filter.
    apply List.NoDup_filter, py_range_NoDup.
  - intros p. rewrite List.filter_In, (in_primes_of limit t p Hl Hs).
    unfold counted, goldbach_pair.
    rewrite !andb_true_iff, !Z.ltb_lt. split.
    + intros ((Hp & Hle) & (H1 & H2) & Hc).
      apply (marked_iff_prime limit) in Hc; [|lia|exact Hs|lia].
      split; [lia|split; assumption].
    + intros (Hp & Hpp & Hpc).
      pose proof (Z.prime_ge_2 _ Hpc) as Hc2.
      split; [split; [exact Hpp|lia]|]. split; [lia|].
      apply (marked_iff_prime limit); try assumption; lia.
  - rewrite primes_of_filter, Hlen.
    set (c := Z.max 0 (Z.min n (limit + 1))).
    rewrite (py_range_split 0 c (limit + 1)) by lia.
    rewrite !List.filter_app.
    assert (Hbelow : Forall (fun p => p < n)
                       (List.filter (marked t) (py_range 0 c))).
    { apply List.Forall_forall. intros p Hp.
      apply List.filter_In in Hp. destruct Hp as [Hp _].
      apply in_py_range in Hp. lia. }
    assert (Habove : Forall (fun p => n <= p)
                       (List.filter (marked t) (py_range c (limit + 1)))).
    { apply List.Forall_forall. intros p Hp.
      apply List.filter_In in Hp. destruct Hp as [Hp _].
      apply in_py_range in Hp. lia. }
    rewrite count_loop_within by (assumption || lia).
    rewrite (filter_counted_above t n _ Habove), app_nil_r. reflexivity.
Qed.

End CountEdges.

(** The count stays exact two steps past the sieve: for every n up to
    limit + 2 it is the number of primes p with 2 <= p < n and n - p prime
    (none when n <= 3), since the loop reads the table at n - p <= limit
    only. *)
Theorem goldbach_count_exact (limit n : Z) :
  1 <= limit -> n <= limit + 2 ->
  exists pairs : list Z,
    List.NoDup pairs /\
    (forall p : Z, In p pairs <-> goldbach_pair n p) /\
    goldbach_count limit n = Ret (Z.of_nat (length pairs)) /\
    (n <= 3 -> goldbach_count limit n = Ret 0).
Proof.
  intros Hl Hn. destruct (sieve_returns_sieved limit Hl) as (t & Ht & Hs).
  destruct (goldbach_pairs_counted limit n t Hl Hn Hs) as (Hnd & Hin & Hcount).
  exists (List.filter (counted t n) (primes_of t)).
  assert (Hc : goldbach_count limit n =
               Ret (Z.of_nat (length (List.filter (counted t n) (primes_of t))))).
  { unfold goldbach_count. rewrite Ht. cbn [bind]. exact Hcount. }
  split; [exact Hnd|]. split; [exact Hin|]. split; [exact Hc|].
  intros H3. rewrite Hc.
  destruct (List.filter (counted t n) (primes_of t)) as [|p pairs]; [reflexivity|].
  exfalso. destruct (proj1 (Hin p) (or_introl eq_refl)) as (Hp & _ & Hq).
  pose proof (Z.prime_ge_2 _ Hq). lia.
Qed.

Lemma goldbach_count_exact_witness :
  exists pairs : list Z,
    List.NoDup pairs /\
    (forall p : Z, In p pairs <-> goldbach_pair 32 p) /\
    goldbach_count 30 32 = Ret (Z.of_nat (length pairs)) /\
    (32 <= 3 -> goldbach_count 30 32 = Ret 0).
Proof. apply (goldbach_count_exact 30 32); lia. Defined.

(** Three steps past the sieve the first prime already reads outside the
    table: for limit >= 2 and n >= limit + 3 the count raises
    [IndexError]. *)
Theorem goldbach_count_out_of_range (limit n : Z) :
  2 <= limit -> limit + 3 <= n ->
  goldbach_count limit n = Raise IndexError.
Proof.
  intros Hl Hn.
  destruct (sieve_returns_sieved limit ltac:(lia)) as (t & Ht & Hs).
  pose proof Hs as [Hlen _].
  destruct (primes_of_prefix 2 limit [0; 0; 1] t ltac:(lia) eq_refl Ht)
    as (rest & Hsplit & _).
  unfold goldbach_count. rewrite Ht. cbn [bind]. cbv zeta. rewrite Hsplit.
  change (primes_of [0; 0; 1]) with [2]. cbn [app count_loop].
  rewrite Z.geb_leb. destruct (Z.leb_spec n 2); [lia|].
  destruct (Z.ltb_spec 1 (n - 2)); [|lia]. cbn [Z.ltb Z.compare andb].
  unfold getitem, norm_index.
  destruct (Z.ltb_spec (n - 2) 0); [lia|].
  destruct (Z.ltb_spec (n - 2) (Z.of_nat (length t))); [lia|].
  rewrite andb_false_r. reflexivity.
Qed.

Lemma goldbach_count_out_of_range_witness : goldbach_count 30 34 = Raise IndexError.
Proof. apply goldbach_count_out_of_range; lia. Defined.

Section Parity.

Variable n : Z.

(** A list without repetition that holds [n - p] with every [p] has odd
    length exactly when it holds a [p] with [n - p = p]. *)
Lemma mirror_parity (len : nat) :
  forall l : list Z,
    length l = len -> List.NoDup l -> (forall p, In p l -> In (n - p) l) ->
    Z.of_nat (length l) mod 2 = 1 <-> exists p : Z, In p l /\ n - p = p.
Proof.
  induction len as [len IH] using lt_wf_ind. intros l Hlen Hnd Hclosed.
  destruct l as [|x l].
  - split; [intros H; vm_compute in H; discriminate H|]. intros (p & [] & _).
  - apply List.NoDup_cons_iff in Hnd. destruct Hnd as [Hx Hnd].
    destruct (Z.eq_dec (n - x) x) as [Hfix|Hmove].
    + assert (Hclosed' : forall p, In p l -> In (n - p) l).
      { intros p Hp. destruct (Hclosed p (or_intror Hp)) as [E|Hin]; [|exact Hin].
        exfalso. apply Hx. replace x with p by lia. exact Hp. }
      pose proof (IH (length l) ltac:(cbn [length] in Hlen; lia) l eq_refl Hnd Hclosed')
        as Hl.
      assert (Hnone : ~ exists p : Z, In p l /\ n - p = p).
      { intros (p & Hp & Hpp). apply Hx. replace x with p by lia. exact Hp. }
      split.
      * intros _. exists x. split; [left; reflexivity|exact Hfix].
      * intros _. cbn [length]. rewrite Nat2Z.inj_succ.
        assert (Z.of_nat (length l) mod 2 <> 1) by tauto.
        revert H. Z.div_mod_to_equations. lia.
    + assert (Hin : In (n - x) l).
      { destruct (Hclosed x (or_introl eq_refl)) as [E|Hin]; [lia|exact Hin]. }
      apply List.in_split in Hin. destruct Hin as (l1 & l2 & ->).
      pose proof (List.NoDup_remove_1 _ _ _ Hnd) as Hnd'.
      pose proof (List.NoDup_remove_2 _ _ _ Hnd) as Hout.
      assert (Hsub : forall p, In p (l1 ++ l2) -> In p (l1 ++ (n - x) :: l2)).
      { intros p Hp. apply List.in_app_iff in Hp. apply List.in_app_iff.
        destruct Hp; [left|right; right]; assumption. }
      assert (Hclosed' : forall p, In p (l1 ++ l2) -> In (n - p) (l1 ++ l2)).
      { intros p Hp.
        destruct (Hclosed p (or_intror (Hsub p Hp))) as [E|Hin].
        - exfalso. apply Hout. replace (n - x) with p by lia. exact Hp.
        - apply List.in_app_iff in Hin. apply List.in_app_iff.
          destruct Hin as [Hin|[E|Hin]]; [left; exact Hin| |right; exact Hin].
          exfalso. apply Hx. apply Hsub. replace x with p by lia. exact Hp. }
      pose proof (IH (length (l1 ++ l2))
                    ltac:(cbn [length] in Hlen; rewrite length_app in *;
                          cbn [length] in Hlen; lia)
                    (l1 ++ l2) eq_refl Hnd' Hclosed') as Hl.
      assert (Hlen2 : Z.of_nat (length (x :: l1 ++ (n - x) :: l2)) =
                      Z.of_nat (length (l1 ++ l2)) + 2).
      { cbn [length]. rewrite !length_app. cbn [length]. lia. }
      rewrite Hlen2. split.
      * intros Hodd.
        assert (Hodd' : Z.of_nat (length (l1 ++ l2)) mod 2 = 1)
          by (revert Hodd; Z.div_mod_to_equations; lia).
        apply Hl in Hodd'. destruct Hodd' as (p & Hp & Hpp).
        exists p. split; [right; apply Hsub; exact Hp|exact Hpp].
      * intros (p & Hp & Hpp).
        assert (Hp' : In p (l1 ++ l2)).
        { destruct Hp as [E|Hp]; [lia|].
          apply List.in_app_iff in Hp. apply List.in_app_iff.
          destruct Hp as [Hp|[E|Hp]]; [left; exact Hp|lia|right; exact Hp]. }
        assert (Hodd' : Z.of_nat (length (l1 ++ l2)) mod 2 = 1)
          by (apply Hl; exists p; split; assumption).
        revert Hodd'. Z.div_mod_to_equations. lia.
Qed.

End Parity.

(** The ordered count is odd exactly when n is even and n / 2 is prime: the
    primes counted come in pairs p, n - p, and only n / 2 is its own
    partner. *)
Theorem goldbach_count_parity (limit n : Z) :
  1 <= limit -> n <= limit + 2 ->
  exists count : Z,
    goldbach_count limit n = Ret count /\
    (count mod 2 = 1 <-> n mod 2 = 0 /\ Z.prime (n / 2)).
Proof.
  intros Hl Hn. destruct (sieve_returns_sieved limit Hl) as (t & Ht & Hs).
  destruct (goldbach_pairs_counted limit n t Hl Hn Hs) as (Hnd & Hin & Hcount).
  eexists. split; [unfold goldbach_count; rewrite Ht; exact Hcount|].
  rewrite (mirror_parity n _ _ eq_refl Hnd).
  - split.
    + intros (p & Hp & Hfix). apply Hin in Hp. destruct Hp as (_ & Hprime & _).
      assert (E : n = 2 * p) by lia. split.
      * rewrite E, Z.mul_comm. apply Z.mod_mul. lia.
      * rewrite E, Z.mul_comm, Z.div_mul by lia. exact Hprime.
    + intros [Heven Hprime]. exists (n / 2).
      assert (E : n = 2 * (n / 2)) by (apply Z_div_exact_full_2; lia).
      pose proof (Z.prime_ge_2 _ Hprime).
      split; [|lia]. apply Hin. split; [lia|]. split; [exact Hprime|].
      replace (n - n / 2) with (n / 2) by lia. exact Hprime.
  - intros p Hp. apply Hin in Hp. apply Hin.
    destruct Hp as (Hp & Hpp & Hpc). pose proof (Z.prime_ge_2 _ Hpc).
    split; [lia|]. split; [exact Hpc|].
    replace (n - (n - p)) with p by lia. exact Hpp.
Qed.

Lemma goldbach_count_parity_witness :
  exists count : Z,
    goldbach_count 30 10 = Ret count /\
    (count mod 2 = 1 <-> 10 mod 2 = 0 /\ Z.prime (10 / 2)).
Proof. apply (goldbach_count_parity 30 10); lia. Defined.

(** ** Further properties of the conduit factor *)

Section Strip.

Variable p : Z.
Hypothesis p_ge_2 : 2 <= p.

Lemma strip_loop_pow (k : nat) :
  forall (m : Z) (fuel : nat),
    m mod p <> 0 -> (k < fuel)%nat ->
    strip_loop fuel (p ^ Z.of_nat k * m) p = Ret m.
Proof.
  induction k as [|k IH]; intros m fuel Hm Hfuel;
    (destruct fuel as [|fuel]; [lia|]); cbn [strip_loop]; unfold py_mod, py_floordiv;
    (destruct (Z.eqb_spec p 0) as [|_]; [lia|]); cbn [bind].
  - rewrite Z.pow_0_r, Z.mul_1_l.
    destruct (Z.eqb_spec (m mod p) 0); [contradiction|reflexivity].
  - replace (p ^ Z.of_nat (S k) * m) with (p ^ Z.of_nat k * m * p)
      by (rewrite Nat2Z.inj_succ, Z.pow_succ_r by lia; ring).
    rewrite Z.mod_mul by lia. rewrite Z.eqb_refl.
    rewrite Z.div_mul by lia. apply IH; [assumption|lia].
Qed.

(** On a positive [temp] the inner loop ends, on the cofactor of the power
    of [p] in [temp]. *)
Lemma strip_total (temp : Z) :
  1 <= temp ->
  exists (k : nat) (temp' : Z),
    temp = p ^ Z.of_nat k * temp' /\ temp' mod p <> 0 /\ 1 <= temp' <= temp /\
    forall fuel : nat, temp < Z.of_nat fuel -> strip_loop fuel temp p = Ret temp'.
Proof.
  intros Htemp.
  destruct (split_power p p_ge_2 temp ltac:(lia)) as (k & m & Hkm & Hm).
  assert (Hpk : Z.of_nat k < p ^ Z.of_nat k) by (apply Z.pow_gt_lin_r; lia).
  assert (Hm1 : 1 <= m) by nia.
  exists k, m. split; [exact Hkm|]. split; [exact Hm|]. split; [nia|].
  intros fuel Hfuel. rewrite Hkm. apply strip_loop_pow; [exact Hm|nia].
Qed.

End Strip.

Section WormholeTotal.

Lemma wormhole_loop_total (n0 limit : Z) (primes : list Z) :
  forall (factor : float) (temp : Z),
    0 <= temp <= n0 -> 1 <= temp \/ limit <= 2 ->
    exists res : float * Z,
      forall fuel : nat, n0 < Z.of_nat fuel ->
        wormhole_loop fuel limit primes factor temp = Ret res.
Proof.
  induction primes as [|p primes IH]; intros factor temp Htemp Hpos;
    cbn [wormhole_loop].
  - eexists. reflexivity.
  - destruct (Z.gtb_spec p limit) as [Hbreak|Hle]; [eexists; reflexivity|].
    destruct (Z.ltb_spec 2 p) as [Hp|Hp]; [|apply IH; assumption].
    unfold py_mod, true_div.
    destruct (Z.eqb_spec p 0); [lia|]. cbn [bind].
    destruct (temp mod p =? 0); [|apply IH; assumption].
    destruct (Z.eqb_spec (p - 2) 0); [lia|]. cbn [bind]. cbv zeta.
    destruct (strip_total p ltac:(lia) temp ltac:(lia))
      as (k & temp' & _ & _ & Hrange & Hstrip).
    destruct (IH (PrimFloat.mul factor
                    (PrimFloat.div (float_of_int (p - 1)) (float_of_int (p - 2))))
                 temp' ltac:(lia) ltac:(lia)) as (res & Hres).
    exists res. intros fuel Hfuel.
    rewrite Hstrip by lia. cbn [bind]. apply Hres. exact Hfuel.
Qed.

End WormholeTotal.

(** [wormhole_factor] returns on every n >= 0 and every list of integers:
    no division by zero, no loop without end; on n < 0 it raises the
    [ValueError] of [math.isqrt]. *)
Theorem wormhole_factor_total (n : Z) (primes : list Z) :
  (0 <= n -> exists f : float, returns (fun fuel => wormhole_factor fuel n primes) f) /\
  (n < 0 -> forall fuel : nat, wormhole_factor fuel n primes = Raise ValueError).
Proof.
  split.
  - intros Hn.
    assert (Hpos : 1 <= n \/ Z.sqrt n <= 2).
    { destruct (Z.eq_dec n 0) as [->|]; [right; cbn; lia|left; lia]. }
    destruct (wormhole_loop_total n (Z.sqrt n) primes 1%float n ltac:(lia) Hpos)
      as ([factor temp] & Hloop).
    exists (if 2 <? temp
            then PrimFloat.mul factor
                   (PrimFloat.div (float_of_int (temp - 1)) (float_of_int (temp - 2)))
            else factor).
    exists (Z.to_nat (n + 1)). intros fuel Hfuel.
    unfold wormhole_factor, isqrt. cbv zeta.
    destruct (Z.ltb_spec n 0); [lia|]. cbn [bind].
    rewrite Hloop by lia. cbn [bind fst snd].
    destruct (Z.ltb_spec 2 temp); [|reflexivity].
    unfold true_div. destruct (Z.eqb_spec (temp - 2) 0); [lia|]. reflexivity.
  - intros Hn fuel. unfold wormhole_factor, isqrt. cbv zeta.
    destruct (Z.ltb_spec n 0); [reflexivity|lia].
Qed.

Lemma wormhole_factor_total_witness :
  (0 <= 12 -> exists f : float,
     returns (fun fuel => wormhole_factor fuel 12 [2; 3; 4; 0; -5]) f) /\
  (12 < 0 -> forall fuel : nat,
     wormhole_factor fuel 12 [2; 3; 4; 0; -5] = Raise ValueError).
Proof. apply (wormhole_factor_total 12 [2; 3; 4; 0; -5]). Defined.

Section EvenCofactor.

Lemma odd_prime_not_even (p : Z) : Z.prime p -> 2 < p -> ~ (2 | p).
Proof.
  intros Hp H2 H. apply (Z.divide_prime_prime 2 p Z.prime_2 Hp) in H. lia.
Qed.

Lemma even_cofactor (p : Z) (k : nat) (temp' : Z) :
  Z.prime p -> 2 < p -> (p ^ Z.of_nat k * temp') mod 2 = 0 -> temp' mod 2 = 0.
Proof.
  intros Hp H2 Heven. apply Z.mod_divide in Heven; [|lia].
  apply (Z.divide_prime_mul _ _ 2 Z.prime_2) in Heven.
  destruct Heven as [Hpk|Ht]; [|apply Z.mod_divide; [lia|exact Ht]].
  exfalso. apply (not_divide_pow 2 Z.prime_2 p k); [|exact Hpk].
  apply odd_prime_not_even; assumption.
Qed.

Lemma wormhole_loop_even (n0 limit : Z) (primes : list Z) :
  Forall Z.prime primes ->
  forall (factor : float) (temp : Z),
    2 <= temp <= n0 -> temp mod 2 = 0 ->
    exists (factor' : float) (temp' : Z),
      temp' mod 2 = 0 /\ 2 <= temp' /\ (temp' | temp) /\
      forall fuel : nat, n0 < Z.of_nat fuel ->
        wormhole_loop fuel limit primes factor temp = Ret (factor', temp').
Proof.
  induction 1 as [|p primes Hp _ IH]; intros factor temp Htemp Heven;
    cbn [wormhole_loop].
  - exists factor, temp. repeat split; try assumption; try lia. apply Z.divide_refl.
  - destruct (Z.gtb_spec p limit) as [Hbreak|Hle].
    { exists factor, temp. repeat split; try assumption; try lia. apply Z.divide_refl. }
    destruct (Z.ltb_spec 2 p) as [H2|H2]; [|apply IH; assumption].
    unfold py_mod, true_div.
    destruct (Z.eqb_spec p 0); [lia|]. cbn [bind].
    destruct (temp mod p =? 0); [|apply IH; assumption].
    destruct (Z.eqb_spec (p - 2) 0); [lia|]. cbn [bind]. cbv zeta.
    destruct (strip_total p ltac:(lia) temp ltac:(lia))
      as (k & temp1 & Hsplit & _ & Hrange & Hstrip).
    assert (Heven1 : temp1 mod 2 = 0).
    { apply (even_cofactor p k temp1 Hp H2). rewrite <- Hsplit. exact Heven. }
    assert (H21 : 2 <= temp1) by (revert Heven1; Z.div_mod_to_equations; lia).
    destruct (IH (PrimFloat.mul factor
                    (PrimFloat.div (float_of_int (p - 1)) (float_of_int (p - 2))))
                 temp1 ltac:(lia) Heven1) as (factor' & temp' & He & H2' & Hdiv & Hres).
    exists factor', temp'. split; [exact He|]. split; [exact H2'|]. split.
    + apply Z.divide_trans with temp1; [exact Hdiv|].
      exists (p ^ Z.of_nat k). lia.
    + intros fuel Hfuel. rewrite Hstrip by lia. cbn [bind]. apply Hres. exact Hfuel.
Qed.

End EvenCofactor.

(** On an even n >= 2 and a list of primes, the cofactor [temp] left by the
    loop of [wormhole_factor] is an even divisor of n: the factors 2 are
    never stripped, so the last test [temp > 2] holds only on an even
    [temp >= 4], and the factor it then applies is that of no prime.  (n is
    kept below 2^53 so that the operands of every division are exact
    floats.) *)
Theorem wormhole_factor_even_cofactor (n : Z) (primes : list Z) :
  2 <= n -> n < 2 ^ 53 -> n mod 2 = 0 -> Forall Z.prime primes ->
  exists (factor : float) (temp : Z),
    temp mod 2 = 0 /\ 2 <= temp /\ (temp | n) /\
    returns (fun fuel => wormhole_loop fuel (Z.sqrt n) primes 1%float n)
            (factor, temp) /\
    returns (fun fuel => wormhole_factor fuel n primes)
            (if 2 <? temp
             then PrimFloat.mul factor
                    (PrimFloat.div (float_of_int (temp - 1)) (float_of_int (temp - 2)))
             else factor).
Proof.
  intros Hn _ Heven Hprimes.
  destruct (wormhole_loop_even n (Z.sqrt n) primes Hprimes 1%float n ltac:(lia) Heven)
    as (factor & temp & He & H2 & Hdiv & Hloop).
  exists factor, temp. split; [exact He|]. split; [exact H2|]. split; [exact Hdiv|].
  split.
  - exists (Z.to_nat (n + 1)). intros fuel Hfuel. apply Hloop. lia.
  - exists (Z.to_nat (n + 1)). intros fuel Hfuel.
    unfold wormhole_factor, isqrt. cbv zeta.
    destruct (Z.ltb_spec n 0); [lia|]. cbn [bind].
    rewrite Hloop by lia. cbn [bind fst snd].
    destruct (Z.ltb_spec 2 temp); [|reflexivity].
    unfold true_div. destruct (Z.eqb_spec (temp - 2) 0); [lia|]. reflexivity.
Qed.

Lemma wormhole_factor_even_cofactor_witness :
  exists (factor : float) (temp : Z),
    temp mod 2 = 0 /\ 2 <= temp /\ (temp | 12) /\
    returns (fun fuel => wormhole_loop fuel (Z.sqrt 12) [2; 3; 5; 7] 1%float 12)
            (factor, temp) /\
    returns (fun fuel => wormhole_factor fuel 12 [2; 3; 5; 7])
            (if 2 <? temp
             then PrimFloat.mul factor
                    (PrimFloat.div (float_of_int (temp - 1)) (float_of_int (temp - 2)))
             else factor).
Proof.
  apply (wormhole_factor_even_cofactor 12 [2; 3; 5; 7]); [lia|lia|reflexivity|].
  repeat (apply List.Forall_cons;
    [first [exact Z.prime_2|exact Z.prime_3|exact prime_5|exact prime_7]|]).
  apply List.Forall_nil.
Defined.

Section WormholeSkips.

(** Elements that are at most 2 or do not divide [temp] change nothing. *)
Lemma wormhole_loop_idle (fuel : nat) (limit temp : Z) (primes : list Z) :
  Forall (fun p => p <= 2 \/ temp mod p <> 0) primes ->
  forall factor : float,
    wormhole_loop fuel limit primes factor temp = Ret (factor, temp).
Proof.
  intros H factor. induction H as [|p primes Hp _ IH]; cbn [wormhole_loop].
  - reflexivity.
  - destruct (p >? limit); [reflexivity|].
    destruct (Z.ltb_spec 2 p) as [H2|H2]; [|exact IH].
    destruct Hp as [Hp|Hp]; [lia|].
    unfold py_mod. destruct (Z.eqb_spec p 0); [lia|]. cbn [bind].
    destruct (Z.eqb_spec (temp mod p) 0); [contradiction|]. exact IH.
Qed.

Lemma wormhole_loop_skip (fuel : nat) (limit temp : Z) (skipped rest : list Z) :
  Forall (fun p => p <= limit /\ (p <= 2 \/ temp mod p <> 0)) skipped ->
  forall factor : float,
    wormhole_loop fuel limit (skipped ++ rest) factor temp =
    wormhole_loop fuel limit rest factor temp.
Proof.
  intros H factor. induction H as [|p skipped [Hle Hp] _ IH]; cbn [app wormhole_loop].
  - reflexivity.
  - destruct (Z.gtb_spec p limit); [lia|].
    destruct (Z.ltb_spec 2 p) as [H2|H2]; [|exact IH].
    destruct Hp as [Hp|Hp]; [lia|].
    unfold py_mod. destruct (Z.eqb_spec p 0); [lia|]. cbn [bind].
    destruct (Z.eqb_spec (temp mod p) 0); [contradiction|]. exact IH.
Qed.

Lemma prime_idle_on_power_of_2 (k : Z) (p : Z) :
  0 <= k -> Z.prime p -> p <= 2 \/ 2 ^ k mod p <> 0.
Proof.
  intros Hk Hp. destruct (Z_le_gt_dec p 2) as [Hle|Hgt]; [left; exact Hle|right].
  intros E. apply Z.mod_divide in E; [|lia].
  apply (Z.divide_prime_pp p 2 k Hp Z.prime_2 Hk) in E. lia.
Qed.

End WormholeSkips.

(** On a power of two n = 2^k with k >= 2, and any list of primes,
    [wormhole_factor] returns 1.0 * ((n - 1) / (n - 2)): the loop changes
    nothing and the last test takes n itself for a prime factor.  (The
    exponent is kept below 54 so that both operands are exact floats.) *)
Theorem wormhole_factor_power_of_two (fuel : nat) (k : Z) (primes : list Z) :
  2 <= k <= 53 -> Forall Z.prime primes ->
  wormhole_factor fuel (2 ^ k) primes =
  Ret (PrimFloat.mul 1%float
         (PrimFloat.div (float_of_int (2 ^ k - 1)) (float_of_int (2 ^ k - 2)))).
Proof.
  intros Hk Hprimes.
  assert (Hn : 4 <= 2 ^ k).
  { change 4 with (2 ^ 2). apply Z.pow_le_mono_r; lia. }
  unfold wormhole_factor, isqrt. cbv zeta.
  destruct (Z.ltb_spec (2 ^ k) 0); [lia|]. cbn [bind].
  rewrite wormhole_loop_idle.
  - cbn [bind fst snd]. destruct (Z.ltb_spec 2 (2 ^ k)); [|lia].
    unfold true_div. destruct (Z.eqb_spec (2 ^ k - 2) 0); [lia|]. reflexivity.
  - apply (List.Forall_impl _ (P := Z.prime)); [|exact Hprimes].
    intros p Hp. apply prime_idle_on_power_of_2; [lia|exact Hp].
Qed.

Lemma wormhole_factor_power_of_two_witness :
  wormhole_factor 0 (2 ^ 5) [2; 3; 5] =
  Ret (PrimFloat.mul 1%float
         (PrimFloat.div (float_of_int (2 ^ 5 - 1)) (float_of_int (2 ^ 5 - 2)))).
Proof.
  apply (wormhole_factor_power_of_two 0 5 [2; 3; 5]); [lia|].
  repeat (apply List.Forall_cons;
    [first [exact Z.prime_2|exact Z.prime_3|exact prime_5]|]).
  apply List.Forall_nil.
Defined.

Section OnePrime.

Variables (p : Z) (k : nat).
Hypothesis p_prime : Z.prime p.
Hypothesis p_odd : 2 < p.
Hypothesis k_ge_2 : (2 <= k)%nat.

Lemma sqrt_reaches_p : p <= Z.sqrt (2 * p ^ Z.of_nat k).
Proof.
  assert (Hsq : p * p <= p ^ Z.of_nat k).
  { replace (p * p) with (p ^ 2) by ring. apply Z.pow_le_mono_r; lia. }
  apply Z.sqrt_le_square; nia.
Qed.

Lemma smaller_prime_idle (q : Z) :
  Z.prime q -> q < p -> q <= 2 \/ (2 * p ^ Z.of_nat k) mod q <> 0.
Proof.
  intros Hq Hlt. destruct (Z_le_gt_dec q 2) as [Hle|Hgt]; [left; exact Hle|right].
  intros E. apply Z.mod_divide in E; [|lia].
  apply (Z.divide_prime_mul _ _ q Hq) in E. destruct E as [E|E].
  - apply Z.divide_pos_le in E; lia.
  - apply (Z.divide_prime_pp q p (Z.of_nat k) Hq p_prime ltac:(lia)) in E. lia.
Qed.

Lemma wormhole_factor_one_prime (fuel : nat) (before after : list Z) :
  Forall (fun q => Z.prime q /\ q < p) before -> (k < fuel)%nat ->
  wormhole_factor fuel (2 * p ^ Z.of_nat k) (before ++ p :: after) =
  Ret (PrimFloat.mul 1%float
         (PrimFloat.div (float_of_int (p - 1)) (float_of_int (p - 2)))).
Proof.
  intros Hbefore Hfuel. pose proof sqrt_reaches_p as Hsqrt.
  assert (Hpk : 0 < p ^ Z.of_nat k) by (apply Z.pow_pos_nonneg; lia).
  unfold wormhole_factor, isqrt. cbv zeta.
  destruct (Z.ltb_spec (2 * p ^ Z.of_nat k) 0); [lia|]. cbn [bind].
  rewrite wormhole_loop_skip.
  - cbn [wormhole_loop]. destruct (Z.gtb_spec p (Z.sqrt (2 * p ^ Z.of_nat k))); [lia|].
    destruct (Z.ltb_spec 2 p); [|lia]. unfold py_mod, true_div.
    destruct (Z.eqb_spec p 0); [lia|]. cbn [bind].
    assert (Hmod : (2 * p ^ Z.of_nat k) mod p = 0).
    { replace (Z.of_nat k) with (Z.succ (Z.of_nat (k - 1))) by lia.
      rewrite Z.pow_succ_r by lia.
      replace (2 * (p * p ^ Z.of_nat (k - 1))) with (2 * p ^ Z.of_nat (k - 1) * p)
        by ring.
      apply Z.mod_mul. lia. }
    rewrite Hmod. cbn [Z.eqb].
    destruct (Z.eqb_spec (p - 2) 0); [lia|]. cbn [bind]. cbv zeta.
    rewrite (Z.mul_comm 2 (p ^ Z.of_nat k)).
    rewrite (strip_loop_pow p ltac:(lia) k 2 fuel)
      by (try exact Hfuel; rewrite Z.mod_small; lia).
    cbn [bind]. rewrite wormhole_loop_idle.
    + cbn [bind fst snd]. reflexivity.
    + apply List.Forall_forall. intros q _.
      destruct (Z_le_gt_dec q 2) as [Hle|Hgt]; [left; exact Hle|right].
      rewrite Z.mod_small; lia.
  - apply (List.Forall_impl _ (P := fun q => Z.prime q /\ q < p)); [|exact Hbefore].
    intros q [Hq Hlt]. split; [lia|]. apply smaller_prime_idle; assumption.
Qed.

End OnePrime.

(** Where [temp] ends at 2 the result is the product asked for: on
    n = 2 p^k, with an odd prime p within the sieve and k >= 2, the scan's
    factor is 1.0 * ((p - 1) / (p - 2)), the factor of p applied once
    whatever the exponent k.  (p is kept below 2^53 so that both operands
    are exact floats.) *)
Theorem scan_wormhole_one_prime (limit p : Z) (k : nat) :
  Z.prime p -> 2 < p -> p < 2 ^ 53 -> (2 <= k)%nat -> p <= limit ->
  returns (fun fuel => scan_wormhole fuel limit (2 * p ^ Z.of_nat k))
          (PrimFloat.mul 1%float
             (PrimFloat.div (float_of_int (p - 1)) (float_of_int (p - 2)))).
Proof.
  intros Hp H2 _ Hk Hlimit.
  destruct (sieve_returns_sieved limit ltac:(lia)) as (t & Ht & Hs).
  pose proof Hs as [Hlen _].
  exists (S k). intros fuel Hfuel. unfold scan_wormhole. rewrite Ht. cbn [bind].
  cbv zeta. rewrite primes_of_filter, Hlen.
  rewrite (py_range_split 0 p (limit + 1)) by lia.
  rewrite (py_range_cons p (limit + 1)) by lia.
  rewrite List.filter_app. cbn [List.filter].
  rewrite (proj2 (marked_iff_prime limit t p ltac:(lia) Hs ltac:(lia)) Hp).
  apply wormhole_factor_one_prime; [exact Hp|exact H2|exact Hk| |lia].
  apply List.Forall_forall. intros q Hq. apply List.filter_In in Hq.
  destruct Hq as [Hq Hm]. apply in_py_range in Hq. split; [|lia].
  apply (marked_iff_prime limit t q); [lia|exact Hs|lia|exact Hm].
Qed.

Lemma scan_wormhole_one_prime_witness :
  returns (fun fuel => scan_wormhole fuel 18 (2 * 3 ^ Z.of_nat 2))
          (PrimFloat.mul 1%float
             (PrimFloat.div (float_of_int (3 - 1)) (float_of_int (3 - 2)))).
Proof.
  apply (scan_wormhole_one_prime 18 3 2); [exact Z.prime_3|lia|lia|lia|lia].
Defined.

(** ** The conduit factor on odd n *)

Section PrimeDivisors.

(** The sieve decides primality: a number from 2 on is prime or has a
    divisor from 2 up to its square root. *)
Lemma prime_or_divisor (a : Z) :
  2 <= a -> Z.prime a \/ exists d : Z, 2 <= d /\ d * d <= a /\ (d | a).
Proof.
  intros Ha. destruct (sieve_returns_sieved a ltac:(lia)) as (t & _ & _ & Ht).
  destruct (Ht a ltac:(lia)) as [(_ & _ & Hns)|(_ & [Hlt|(d & Hd & Hdiv & Hsq)])].
  - left. apply (unstruck_iff_prime a ltac:(lia) a ltac:(lia)). split; assumption.
  - lia.
  - right. exists d. split; [lia|]. split; assumption.
Qed.

Lemma prime_divisor_exists (b : nat) :
  forall a : Z, 2 <= a < Z.of_nat b -> exists q : Z, Z.prime q /\ (q | a).
Proof.
  induction b as [|b IH]; intros a Ha; [lia|].
  destruct (prime_or_divisor a ltac:(lia)) as [Hp|(d & Hd & Hsq & Hdiv)].
  - exists a. split; [exact Hp|apply Z.divide_refl].
  - destruct (IH d ltac:(nia)) as (q & Hq & Hqd).
    exists q. split; [exact Hq|]. apply Z.divide_trans with d; assumption.
Qed.

(** A number all of whose prime divisors exceed the square root of a bound
    above it is 1 or a prime. *)
Lemma one_or_prime (n temp : Z) :
  1 <= temp <= n ->
  (forall q : Z, Z.prime q -> (q | temp) -> Z.sqrt n < q) ->
  temp = 1 \/ Z.prime temp.
Proof.
  intros Htemp Hbig. destruct (Z.eq_dec temp 1) as [E|Hne]; [left; exact E|right].
  destruct (prime_or_divisor temp ltac:(lia)) as [Hp|(d & Hd & Hsq & Hdiv)];
    [exact Hp|exfalso].
  destruct (prime_divisor_exists (Z.to_nat (d + 1)) d ltac:(lia)) as (q & Hq & Hqd).
  pose proof (Z.prime_ge_2 q Hq) as Hq2.
  assert (Hqle : q <= d) by (apply Z.divide_pos_le; [lia|exact Hqd]).
  assert (Hqt : (q | temp)) by (apply Z.divide_trans with d; assumption).
  specialize (Hbig q Hq Hqt).
  assert (q <= Z.sqrt n) by (apply Z.sqrt_le_square; nia). lia.
Qed.

End PrimeDivisors.

Section OddProduct.

Variable n : Z.
Hypothesis n_odd : n mod 2 = 1.

Let step (factor : float) (p : Z) : float :=
  if (2 <? p) && (n mod p =? 0) then PrimFloat.mul factor (prime_ratio p) else factor.

Lemma product_none (l : list Z) (factor : float) :
  Forall (fun q => ~ (2 < q /\ (q | n))) l -> fold_left step l factor = factor.
Proof.
  intros H. revert factor. induction H as [|q l Hq _ IH]; intros factor;
    cbn [fold_left]; [reflexivity|].
  rewrite IH. unfold step.
  destruct (Z.ltb_spec 2 q) as [H2|H2]; [|reflexivity]. cbn [andb].
  destruct (Z.eqb_spec (n mod q) 0) as [E|E]; [|reflexivity].
  exfalso. apply Hq. split; [exact H2|]. apply Z.mod_divide; [lia|exact E].
Qed.

Lemma product_one (x : Z) (l : list Z) (factor : float) :
  2 < x -> (x | n) -> List.NoDup l -> In x l ->
  (forall q, In q l -> q <> x -> ~ (2 < q /\ (q | n))) ->
  fold_left step l factor = PrimFloat.mul factor (prime_ratio x).
Proof.
  intros Hx Hxn Hnd. revert factor.
  induction Hnd as [|q l Hq Hnd IH]; intros factor Hin Hothers; [destruct Hin|].
  cbn [fold_left]. destruct (Z.eq_dec q x) as [->|Hne].
  - rewrite product_none.
    + unfold step. destruct (Z.ltb_spec 2 x); [|lia]. cbn [andb].
      apply Z.mod_divide in Hxn; [|lia]. rewrite Hxn. reflexivity.
    + apply List.Forall_forall. intros y Hy. apply Hothers; [right; exact Hy|].
      intros ->. contradiction.
  - assert (Hstep : step factor q = factor).
    { unfold step. destruct (Z.ltb_spec 2 q) as [H2|H2]; [|reflexivity]. cbn [andb].
      destruct (Z.eqb_spec (n mod q) 0) as [E|E]; [|reflexivity].
      exfalso. apply (Hothers q (or_introl eq_refl) Hne).
      split; [exact H2|]. apply Z.mod_divide; [lia|exact E]. }
    rewrite Hstep. apply IH.
    + destruct Hin as [E|Hin]; [contradiction|exact Hin].
    + intros y Hy. apply Hothers. right. exact Hy.
Qed.

Lemma odd_divisor (temp : Z) : (temp | n) -> ~ (2 | temp).
Proof.
  intros Hdiv H2. assert (H : (2 | n)) by (apply Z.divide_trans with temp; assumption).
  apply Z.mod_divide in H; lia.
Qed.

(** The loop of [wormhole_factor] and the product of the docstring agree,
    from any point of the list on: [rest] holds the primes still to come,
    every prime divisor of [temp] among them, and these divide [n] exactly
    when they divide [temp]. *)
Lemma wormhole_loop_product (n0 : Z) (rest : list Z) :
  1 <= n <= n0 ->
  Forall Z.prime rest -> StronglySorted Z.lt rest ->
  forall (factor : float) (temp : Z),
    1 <= temp <= n -> (temp | n) ->
    (forall q, In q rest -> ((q | n) <-> (q | temp))) ->
    (forall q, Z.prime q -> (q | temp) -> In q rest) ->
    exists (factor' : float) (temp' : Z),
      (forall fuel : nat, n0 < Z.of_nat fuel ->
         wormhole_loop fuel (Z.sqrt n) rest factor temp = Ret (factor', temp')) /\
      (if 2 <? temp' then PrimFloat.mul factor' (prime_ratio temp') else factor') =
      fold_left step rest factor.
Proof.
  intros Hn Hprimes Hsorted. revert Hsorted.
  induction Hprimes as [|p rest Hp Hprimes IH]; intros Hsorted factor temp
    Htemp Hdiv Hsame Hahead.
  - exists factor, temp. split; [reflexivity|]. cbn [fold_left].
    destruct (Z.eq_dec temp 1) as [->|Hne]; [reflexivity|exfalso].
    destruct (prime_divisor_exists (Z.to_nat (temp + 1)) temp ltac:(lia))
      as (q & Hq & Hqt).
    exact (Hahead q Hq Hqt).
  - apply StronglySorted_inv in Hsorted. destruct Hsorted as [Hsorted Hlt].
    rewrite List.Forall_forall in Hlt.
    pose proof (Z.prime_ge_2 p Hp) as Hp2.
    assert (Hnotin : ~ In p rest) by (intros H; specialize (Hlt p H); lia).
    cbn [wormhole_loop].
    destruct (Z.gtb_spec p (Z.sqrt n)) as [Hbreak|Hle].
    + (* break: [temp] is 1 or the one large prime factor *)
      exists factor, temp. split; [reflexivity|].
      assert (Hbig : forall q, Z.prime q -> (q | temp) -> Z.sqrt n < q).
      { intros q Hq Hqt. destruct (Hahead q Hq Hqt) as [<-|Hin]; [lia|].
        specialize (Hlt q Hin). lia. }
      destruct (one_or_prime n temp Htemp Hbig) as [->|Hprime].
      * cbn [Z.ltb Z.compare]. symmetry. apply product_none.
        apply List.Forall_forall. intros q Hq [H2 Hqn].
        apply (Hsame q Hq) in Hqn. apply Z.divide_1_r_nonneg in Hqn; lia.
      * pose proof (Z.prime_ge_2 temp Hprime) as Ht2.
        assert (Hodd : 2 < temp).
        { destruct (Z.eq_dec temp 2) as [->|]; [|lia].
          exfalso. apply (odd_divisor 2 Hdiv). apply Z.divide_refl. }
        destruct (Z.ltb_spec 2 temp); [|lia]. symmetry.
        apply product_one; try assumption.
        -- constructor; [exact Hnotin|].
           apply StronglySorted_Sorted in Hsorted.
           clear - Hsorted Hprimes. clear Hprimes.
           assert (Hss : StronglySorted Z.lt rest).
           { apply Sorted_StronglySorted; [intros x y z; lia|exact Hsorted]. }
           clear Hsorted. induction Hss as [|a l Hl IHl Ha]; constructor.
           ++ intros Hin. rewrite List.Forall_forall in Ha. specialize (Ha a Hin). lia.
           ++ exact IHl.
        -- apply Hahead; [exact Hprime|apply Z.divide_refl].
        -- intros q Hq Hne [H2 Hqn]. apply (Hsame q Hq) in Hqn.
           assert (Hqprime : Z.prime q).
           { destruct Hq as [<-|Hq]; [exact Hp|].
             rewrite List.Forall_forall in Hprimes. apply Hprimes. exact Hq. }
           apply (Z.divide_prime_prime q temp Hqprime Hprime) in Hqn. contradiction.
    + assert (Hsame' : forall t', (t' | temp) -> (forall q, Z.prime q -> q <> p ->
                          ((q | temp) <-> (q | t'))) ->
                       forall q, In q rest -> ((q | n) <-> (q | t'))).
      { intros t' Ht' Hiff q Hq. rewrite (Hsame q (or_intror Hq)).
        apply Hiff.
        - rewrite List.Forall_forall in Hprimes. apply Hprimes. exact Hq.
        - intros ->. contradiction. }
      assert (Hkeep : ~ (p | temp) -> exists (factor' : float) (temp' : Z),
                (forall fuel : nat, n0 < Z.of_nat fuel ->
                   wormhole_loop fuel (Z.sqrt n) rest factor temp = Ret (factor', temp')) /\
                (if 2 <? temp' then PrimFloat.mul factor' (prime_ratio temp')
                 else factor') = fold_left step rest factor).
      { intros Hnd. apply IH; try assumption.
        - intros q Hq. apply Hsame. right. exact Hq.
        - intros q Hq Hqt. destruct (Hahead q Hq Hqt) as [<-|Hin];
            [contradiction|exact Hin]. }
      assert (Hstep_skip : ~ (2 < p /\ (p | temp)) -> step factor p = factor).
      { intros Hno. unfold step. destruct (Z.ltb_spec 2 p) as [H2|H2]; [|reflexivity].
        cbn [andb]. destruct (Z.eqb_spec (n mod p) 0) as [E|E]; [|reflexivity].
        exfalso. apply Hno. split; [exact H2|].
        apply (Hsame p (or_introl eq_refl)). apply Z.mod_divide; [lia|exact E]. }
      destruct (Z.ltb_spec 2 p) as [H2|H2].
      * unfold py_mod, true_div.
        destruct (Z.eqb_spec p 0); [lia|]. cbn [bind].
        destruct (Z.eqb_spec (temp mod p) 0) as [Hmod|Hmod].
        -- destruct (Z.eqb_spec (p - 2) 0); [lia|]. cbn [bind]. cbv zeta.
           destruct (strip_total p ltac:(lia) temp ltac:(lia))
             as (k & temp1 & Hsplit & Hunit & Hrange & Hstrip).
           assert (Hdiv1 : (temp1 | temp)) by (exists (p ^ Z.of_nat k); lia).
           destruct (IH Hsorted (PrimFloat.mul factor (prime_ratio p)) temp1)
             as (factor' & temp' & Hloop & Hfinal).
           ++ lia.
           ++ apply Z.divide_trans with temp; assumption.
           ++ apply (Hsame' temp1 Hdiv1). intros q Hq Hne. split.
              ** intros Hqt. rewrite Hsplit in Hqt.
                 apply (Z.divide_prime_mul _ _ q Hq) in Hqt.
                 destruct Hqt as [Hqp|Hqt]; [|exact Hqt]. exfalso. apply Hne.
                 apply (Z.divide_prime_pp q p (Z.of_nat k) Hq Hp ltac:(lia) Hqp).
              ** intros Hqt. apply Z.divide_trans with temp1; assumption.
           ++ intros q Hq Hqt.
              destruct (Hahead q Hq (Z.divide_trans _ _ _ Hqt Hdiv1)) as [<-|Hin];
                [|exact Hin].
              exfalso. apply Hunit. apply Z.mod_divide; [lia|exact Hqt].
           ++ exists factor', temp'. split.
              ** intros fuel Hfuel. rewrite Hstrip by lia. cbn [bind].
                 apply Hloop. exact Hfuel.
              ** rewrite Hfinal. cbn [fold_left]. f_equal. unfold step.
                 destruct (Z.ltb_spec 2 p); [|lia]. cbn [andb].
                 assert (Hpn : (p | n)).
                 { apply (Hsame p (or_introl eq_refl)).
                   apply Z.mod_divide; [lia|exact Hmod]. }
                 apply Z.mod_divide in Hpn; [|lia]. rewrite Hpn. reflexivity.
        -- assert (Hnd : ~ (p | temp)).
           { intros H. apply Hmod. apply Z.mod_divide; [lia|exact H]. }
           destruct (Hkeep Hnd) as (factor' & temp' & Hloop & Hfinal).
           exists factor', temp'. split; [exact Hloop|].
           rewrite Hfinal. cbn [fold_left]. rewrite Hstep_skip by tauto. reflexivity.
      * assert (Hnd : ~ (p | temp)).
        { assert (p = 2) by lia. subst p. apply odd_divisor. exact Hdiv. }
        destruct (Hkeep Hnd) as (factor' & temp' & Hloop & Hfinal).
        exists factor', temp'. split; [exact Hloop|].
        rewrite Hfinal. cbn [fold_left]. rewrite Hstep_skip by lia. reflexivity.
Qed.

End OddProduct.

(** On an odd n within the sieve [wormhole_factor] is right: it returns the
    product of the docstring, one factor (p - 1) / (p - 2) for every prime
    p > 2 dividing n, multiplied in increasing order of p.  (n is kept
    below 2^53 so that the operands of every division are exact floats.) *)
Theorem scan_wormhole_odd (limit n : Z) :
  1 <= n <= limit -> n mod 2 = 1 -> n < 2 ^ 53 ->
  exists t : list Z,
    sieve_of_eratosthenes limit = Ret t /\
    returns (fun fuel => scan_wormhole fuel limit n)
            (odd_prime_product n (primes_of t)).
Proof.
  intros Hn Hodd _.
  destruct (sieve_returns_sieved limit ltac:(lia)) as (t & Ht & Hs).
  exists t. split; [exact Ht|].
  destruct (wormhole_loop_product n Hodd n (primes_of t) ltac:(lia))
    with (factor := 1%float) (temp := n)
    as (factor' & temp' & Hloop & Hfinal).
  - apply List.Forall_forall. intros q Hq.
    apply (in_primes_of limit t q ltac:(lia) Hs) in Hq. tauto.
  - apply primes_of_sorted.
  - lia.
  - apply Z.divide_refl.
  - intros q _. tauto.
  - intros q Hq Hqn. apply (in_primes_of limit t q ltac:(lia) Hs).
    split; [exact Hq|]. apply Z.divide_pos_le in Hqn; lia.
  - exists (Z.to_nat (n + 1)). intros fuel Hfuel.
    unfold scan_wormhole. rewrite Ht. cbn [bind]. cbv zeta.
    unfold wormhole_factor, isqrt. cbv zeta.
    destruct (Z.ltb_spec n 0); [lia|]. cbn [bind].
    rewrite Hloop by lia. cbn [bind fst snd].
    unfold odd_prime_product. rewrite <- Hfinal.
    destruct (Z.ltb_spec 2 temp'); [|reflexivity].
    unfold true_div. destruct (Z.eqb_spec (temp' - 2) 0); [lia|]. reflexivity.
Qed.

Lemma scan_wormhole_odd_witness :
  exists t : list Z,
    sieve_of_eratosthenes 50 = Ret t /\
    returns (fun fuel => scan_wormhole fuel 50 45)
            (odd_prime_product 45 (primes_of t)).
Proof. apply (scan_wormhole_odd 50 45); [lia|reflexivity|lia]. Defined.

(** On 45 = 3^2 5 the product is (2 / 1) (4 / 3). *)
Example scan_wormhole_45 :
  scan_wormhole 5 50 45 = Ret (2 * (4 / 3))%float.
Proof. vm_compute. reflexivity. Qed.

Section BadCases.

Lemma check_5_1_zero (fuel : nat) (all_pass : bool) (N p e : Z) :
  check_5_1 fuel all_pass (N, p, 0, e) = Raise ZeroDivisionError.
Proof. reflexivity. Qed.

End BadCases.

(** A case with r = 0 makes [verify_theorem_5_1] raise
    [ZeroDivisionError], at the first test of its hypothesis check, once
    the cases before it (with odd primes) have been checked. *)
Theorem verify_theorem_5_1_zero_prime (before after : list (Z * Z * Z * Z)) (N p e : Z) :
  Forall odd_prime_case before ->
  exists k0 : nat, forall fuel : nat, (k0 <= fuel)%nat ->
    verify_theorem_5_1_on fuel (before ++ (N, p, 0, e) :: after) =
    Raise ZeroDivisionError.
Proof.
  intros Hb. destruct (for_each_check_5_1_keeps before Hb) as (k1 & Hk1).
  exists k1. intros fuel Hfuel. unfold verify_theorem_5_1_on.
  rewrite for_each_app, Hk1 by lia. cbn [bind for_each].
  rewrite check_5_1_zero. reflexivity.
Qed.

Lemma verify_theorem_5_1_zero_prime_witness :
  exists k0 : nat, forall fuel : nat, (k0 <= fuel)%nat ->
    verify_theorem_5_1_on fuel ([(15, 7, 3, 1)] ++ (15, 7, 0, 1) :: []) =
    Raise ZeroDivisionError.
Proof.
  apply (verify_theorem_5_1_zero_prime [(15, 7, 3, 1)] [] 15 7 1).
  apply List.Forall_cons; [|apply List.Forall_nil].
  unfold odd_prime_case. cbn [fst snd].
  split; [lia|split; [lia|split; [exact Z.prime_3|lia]]].
Defined.
